(** * TaxIntellilytics income tax engine (Uganda): a shallow embedding

    The development follows [mvp_streamlit_app.py] (the ledger classifier
    [auto_map_pl], the calculators [compute_individual_tax_brackets] and
    [compute_company_tax], [apply_credits_and_rebates], the tab-3 reduction
    pipeline, the sidebar bracket loader and [validate_and_build_return]) and
    the module-level computation of [uganda_tax_full_mvp.py].

    Numbers.  The program computes on Python floats, and the development
    looks at them in three ways.  Where a statement is about the structure
    of a computation (the branch taken, the tier, row or field used, what
    is floored at 0) amounts and rates are exact rationals [Q]: every
    operation is the exact counterpart of the float operation of the
    source, and [round(x, 2)] is rounding to the nearest multiple of 1/100,
    ties to even.  Comparisons, [max] and [min] are written the way the
    interpreter evaluates them, so that the branch taken is the branch of
    the source.  Results are compared with [==] (equality of rationals).
    Where a statement depends on how float arithmetic rounds, the
    calculators are taken again in module [F64], on the values of the
    floats with every operation rounded to the nearest binary64 value, and
    run on the machine floats in module [Binary64]. *)

From Stdlib Require Import ZArith QArith Qround Qabs Qpower Bool List Lia Lqa.
From Stdlib Require Import String Ascii DecimalString Permutation Sorted SetoidList.
From Stdlib Require Import Floats.
Import ListNotations.

Local Open Scope string_scope.
Local Open Scope list_scope.
Local Open Scope Q_scope.

(** ** The interpreter's builtins on numbers *)

Module Py.

(** [a < b] as a boolean test. *)
Definition lt (a b : Q) : bool := negb (Qle_bool b a).

(** [max(a, b)]: the first argument is kept unless the second is strictly
    greater. *)
Definition max (a b : Q) : Q := if lt a b then b else a.

(** [min(a, b)]: the first argument is kept unless the second is strictly
    smaller. *)
Definition min (a b : Q) : Q := if lt b a then b else a.

(** Nearest integer, ties to the even neighbour. *)
Definition round_half_even (x : Q) : Z :=
  let f := Qfloor x in
  match Qcompare (x - inject_Z f) (1 # 2) with
  | Lt => f
  | Gt => (f + 1)%Z
  | Eq => if Z.even f then f else (f + 1)%Z
  end.

(** [round(x, 2)]. *)
Definition round2 (x : Q) : Q := round_half_even (x * 100) # 100.

(** [sum(xs)]: left to right from [0]. *)
Definition sum (xs : list Q) : Q := fold_left Qplus xs 0.

End Py.

(** ** Strings *)

Definition lower_ascii (c : ascii) : ascii :=
  let n := nat_of_ascii c in
  if (65 <=? n)%nat && (n <=? 90)%nat then ascii_of_nat (n + 32) else c.

(** [s.lower()], on ASCII letters. *)
Fixpoint lower (s : string) : string :=
  match s with
  | EmptyString => EmptyString
  | String c s' => String (lower_ascii c) (lower s')
  end.

(** ASCII white space, as [str.isspace] sees it. *)
Definition is_space (c : ascii) : bool :=
  let n := nat_of_ascii c in
  ((9 <=? n)%nat && (n <=? 13)%nat) || ((28 <=? n)%nat && (n <=? 32)%nat).

Fixpoint lstrip (s : string) : string :=
  match s with
  | EmptyString => EmptyString
  | String c s' => if is_space c then lstrip s' else s
  end.

Fixpoint rstrip (s : string) : string :=
  match s with
  | EmptyString => EmptyString
  | String c s' =>
      match rstrip s' with
      | EmptyString => if is_space c then EmptyString else String c EmptyString
      | t => String c t
      end
  end.

(** [s.strip()]. *)
Definition strip (s : string) : string := rstrip (lstrip s).

(** The characters of [s] are ASCII.  On such strings [lower] and [strip]
    are [str.lower] and [str.strip]; on other characters the interpreter
    follows Unicode (it lowers accented capitals and strips the no-break
    space, for instance). *)
Definition is_ascii (s : string) : bool :=
  forallb (fun c => (nat_of_ascii c <? 128)%nat) (list_ascii_of_string s).

(** [needle in hay]. *)
Fixpoint contains (needle hay : string) : bool :=
  String.prefix needle hay ||
  match hay with
  | EmptyString => false
  | String _ hay' => contains needle hay'
  end.

(** ** Dicts, in insertion order *)

(** [d[k] = v]: the value of a key already present is replaced where it
    stands, a new key goes to the end. *)
Fixpoint dict_set {V : Type} (d : list (string * V)) (k : string) (v : V) : list (string * V) :=
  match d with
  | [] => [(k, v)]
  | (k', v') :: d' =>
      if String.eqb k' k then (k, v) :: d' else (k', v') :: dict_set d' k v
  end.

(** [d.get(k)]; [k in d] is [dict_get d k] being [Some]. *)
Fixpoint dict_get {V : Type} (d : list (string * V)) (k : string) : option V :=
  match d with
  | [] => None
  | (k', v') :: d' => if String.eqb k' k then Some v' else dict_get d' k
  end.

(** ** Bracket tiers

    A tier is a dict with keys ["threshold"], ["rate"] and, optionally,
    ["fixed"] (read with [b.get("fixed", 0.0)]). *)

Record tier : Type := mk_tier {
  threshold : Q;
  rate : Q;
  fixed : option Q
}.

Definition get_fixed (b : tier) : Q :=
  match fixed b with
  | Some f => f
  | None => 0
  end.

Definition next_threshold_of (rest : list tier) : option Q :=
  match rest with
  | [] => None
  | b' :: _ => Some (threshold b')
  end.

(** The candidate a tier writes into [tax] once the income exceeds its
    threshold. *)
Definition tier_candidate (taxable_income : Q) (b : tier) (next_threshold : option Q) : Q :=
  let upper :=
    match next_threshold with
    | None => taxable_income
    | Some nt => Py.min taxable_income nt
    end in
  let taxable_slice := Py.max 0 (upper - threshold b) in
  get_fixed b + taxable_slice * rate b.

(** The [for i, b in enumerate(brackets)] loop: [brackets] is the part of the
    table still to be visited, [tax] the running value; the [else: break]
    branch returns it unchanged. *)
Fixpoint bracket_loop (taxable_income : Q) (brackets : list tier) (tax : Q) : Q :=
  match brackets with
  | [] => tax
  | b :: rest =>
      if Py.lt (threshold b) taxable_income
      then bracket_loop taxable_income rest
             (tier_candidate taxable_income b (next_threshold_of rest))
      else tax
  end.

Definition compute_individual_tax_brackets (taxable_income : Q) (brackets : list tier) : Q :=
  if Qle_bool taxable_income 0 then 0
  else Py.round2 (Py.max 0 (bracket_loop taxable_income brackets 0)).

Definition compute_company_tax (taxable_income company_rate : Q) : Q :=
  if Qle_bool taxable_income 0 then 0
  else Py.round2 (taxable_income * company_rate).


Definition apply_credits_and_rebates (gross_tax credits_wht credits_foreign rebates : Q) : Q :=
  Py.max 0 (gross_tax - credits_wht - credits_foreign - rebates).

(** ** Sidebar configuration *)

Definition default_brackets : list tier :=
  [ mk_tier 0 0 (Some 0);
    mk_tier 2820000 (10 # 100) (Some 0);
    mk_tier 4020000 (20 # 100) (Some 120000);
    mk_tier 4920000 (30 # 100) (Some 360000);
    mk_tier 10000000 (40 # 100) (Some 1830000) ].

(** [sorted(tiers, key=lambda x: x["threshold"])]: a stable sort that
    compares keys with [<] only.  A stable sort has one possible result;
    it is computed here by stable insertion, an element going in front of
    the first element whose key is not smaller than its own. *)
Fixpoint insert_by_threshold (x : tier) (l : list tier) : list tier :=
  match l with
  | [] => [x]
  | y :: l' =>
      if Py.lt (threshold y) (threshold x)
      then y :: insert_by_threshold x l'
      else x :: y :: l'
  end.

Definition sorted_by_threshold (l : list tier) : list tier :=
  fold_right insert_by_threshold [] l.

(** The [try]/[except] of the sidebar: [parsed] is the value of
    [json.loads(brackets_json)], a list of tiers whose thresholds are
    numbers, [None] when parsing or sorting raises, in which case the
    default table is used as it stands.  A threshold that is [NaN], which
    [json.loads] accepts and no comparison orders, is not a value of
    [threshold]. *)
Definition load_individual_brackets (parsed : option (list tier)) : list tier :=
  match parsed with
  | Some l => sorted_by_threshold l
  | None => default_brackets
  end.

(** ** The ledger classifier *)

(** A column of a data frame: numbers or text, [None] for a missing value
    ([NaN]). *)
Inductive column : Type :=
| Numeric (values : list (option Q))
| Text (values : list (option string)).

(** A data frame: its columns, labelled, in order.  All columns have the
    same length and the labels are distinct. *)
Definition dataframe : Type := list (string * column).

(** [Series.sum()]: missing values are skipped. *)
Definition series_sum (xs : list (option Q)) : Q :=
  fold_right (fun x acc => match x with Some q => q + acc | None => acc end) 0 xs.

(** [{c.lower().strip(): c for c in df.columns}]. *)
Definition columns_by_key (df : dataframe) : list (string * string) :=
  fold_left (fun d c => dict_set d (strip (lower (fst c))) (fst c)) df [].

(** [df[label]]. *)
Definition getitem (df : dataframe) (label : string) : option column :=
  dict_get df label.

(** [df[cols.get(key)].sum() if key in cols else 0.0].  [None] when the
    column is text: the source then adds strings up, which is not
    modelled. *)
Definition column_total (df : dataframe) (cols : list (string * string)) (key : string) : option Q :=
  match dict_get cols key with
  | None => Some 0
  | Some label =>
      match getitem df label with
      | Some (Numeric xs) => Some (series_sum xs)
      | _ => None
      end
  end.

(** [Account.str.contains("k1|k2|...", case=False, na=False)] on one row:
    the patterns are alternations of plain words, matched without regard to
    the case of ASCII letters; a missing account does not match. *)
Definition account_matches (keywords : list string) (account : option string) : bool :=
  match account with
  | None => false
  | Some a => existsb (fun k => contains k (lower a)) keywords
  end.

(** [tmp[tmp["Account"].str.contains(...)]["Amount"].sum()]. *)
Definition ledger_total (keywords : list string) (tmp : list (option string * option Q)) : Q :=
  series_sum (map snd (filter (fun row => account_matches keywords (fst row)) tmp)).

Definition revenue_keywords : list string := ["income"; "sales"; "revenue"].
Definition cogs_keywords : list string := ["cogs"; "cost of goods"].
Definition opex_keywords : list string :=
  ["expense"; "utilities"; "rent"; "salary"; "transport"; "admin"].
Definition other_income_keywords : list string := ["other income"; "gain"].
Definition other_expenses_keywords : list string := ["other expense"; "loss"].

(** The five totals: revenue, cogs, opex, other income, other expenses. *)
Record pl_totals : Type := mk_pl_totals {
  pl_revenue : Q;
  pl_cogs : Q;
  pl_opex : Q;
  pl_other_income : Q;
  pl_other_expenses : Q
}.

(** [None] when a column holds text where numbers are summed, or numbers
    where [.str] is used: the source raises there or leaves the fragment
    embedded here. *)
Definition auto_map_pl (df : dataframe) : option pl_totals :=
  let cols := columns_by_key df in
  match column_total df cols "revenue",
        column_total df cols "cogs",
        column_total df cols "operating_expenses",
        column_total df cols "other_income",
        column_total df cols "other_expenses" with
  | Some revenue, Some cogs, Some opex, Some other_income, Some other_expenses =>
      match dict_get cols "account", dict_get cols "amount" with
      | Some account_label, Some amount_label =>
          match getitem df account_label, getitem df amount_label with
          | Some (Text accounts), Some (Numeric amounts) =>
              let tmp := combine accounts amounts in
              Some (mk_pl_totals
                      (revenue + ledger_total revenue_keywords tmp)
                      (cogs + ledger_total cogs_keywords tmp)
                      (opex + ledger_total opex_keywords tmp)
                      (other_income + ledger_total other_income_keywords tmp)
                      (other_expenses + ledger_total other_expenses_keywords tmp))
          | _, _ => None
          end
      | _, _ => Some (mk_pl_totals revenue cogs opex other_income other_expenses)
      end
  | _, _, _, _, _ => None
  end.

(** The five buckets, their keyword sets and their totals. *)
Inductive bucket : Type :=
| Revenue | Cogs | Opex | OtherIncome | OtherExpenses.

Definition bucket_keywords (k : bucket) : list string :=
  match k with
  | Revenue => revenue_keywords
  | Cogs => cogs_keywords
  | Opex => opex_keywords
  | OtherIncome => other_income_keywords
  | OtherExpenses => other_expenses_keywords
  end.

Definition bucket_total (k : bucket) (t : pl_totals) : Q :=
  match k with
  | Revenue => pl_revenue t
  | Cogs => pl_cogs t
  | Opex => pl_opex t
  | OtherIncome => pl_other_income t
  | OtherExpenses => pl_other_expenses t
  end.

(** The two-column ledger with the given rows. *)
Definition ledger_frame (rows : list (string * Q)) : dataframe :=
  [ ("Account"%string, Text (map (fun r => Some (fst r)) rows));
    ("Amount"%string, Numeric (map (fun r => Some (snd r)) rows)) ].

(** The rows of [ledger_frame rows] as the classifier pairs them up. *)
Definition ledger_rows (rows : list (string * Q)) : list (option string * option Q) :=
  map (fun r => (Some (fst r), Some (snd r))) rows.

(** What one row adds to the total of a keyword set. *)
Definition row_share (keywords : list string) (row : option string * option Q) : Q :=
  if account_matches keywords (fst row)
  then match snd row with Some q => q | None => 0 end
  else 0.

(** The key under which [auto_map_pl] files a column label. *)
Definition column_key (label : string) : string := strip (lower label).

(** The key of the explicit column of each bucket. *)
Definition bucket_column (k : bucket) : string :=
  match k with
  | Revenue => "revenue"
  | Cogs => "cogs"
  | Opex => "operating_expenses"
  | OtherIncome => "other_income"
  | OtherExpenses => "other_expenses"
  end.

(** The keys [auto_map_pl] looks for. *)
Definition recognised_keys : list string :=
  ["revenue"; "cogs"; "operating_expenses"; "other_income"; "other_expenses";
   "account"; "amount"].

(** The two-column ledger with the given rows, an account or an amount
    possibly missing. *)
Definition ledger_frame_with_gaps (rows : list (option string * option Q)) : dataframe :=
  [ ("Account", Text (map fst rows)); ("Amount", Numeric (map snd rows)) ].

(** Every column of the frame holds numbers. *)
Definition all_numeric (df : dataframe) : Prop :=
  Forall (fun c => exists ys, snd c = Numeric ys) df.

(** ** Tab 3: compute and credits *)

Record tab3_input : Type := mk_tab3_input {
  (* st.session_state["mapped_values"] *)
  revenue : Q;
  cogs : Q;
  opex : Q;
  other_income : Q;
  other_expenses : Q;
  (* addbacks.values() and allowables.values(), in label order *)
  addbacks : list Q;
  allowables : list Q;
  capital_allowances : Q;
  exemptions : Q;
  credits_wht : Q;
  credits_foreign : Q;
  rebates : Q;
  provisional_tax_paid : Q;
  (* sidebar *)
  taxpayer_type : string;
  company_rate : Q;
  individual_brackets : list tier
}.

Definition pbit (i : tab3_input) : Q :=
  (revenue i + other_income i) - (cogs i + opex i + other_expenses i).

Definition total_addbacks (i : tab3_input) : Q := Py.sum (addbacks i).

Definition adjusted_profit (i : tab3_input) : Q := pbit i + total_addbacks i.

Definition total_allowables (i : tab3_input) : Q := Py.sum (allowables i).

Definition chargeable_income (i : tab3_input) : Q :=
  Py.max 0 (adjusted_profit i - total_allowables i).

Definition adjusted_taxable_income (i : tab3_input) : Q :=
  Py.max 0 (chargeable_income i - capital_allowances i - exemptions i).

Definition gross_tax (i : tab3_input) : Q :=
  if String.eqb (lower (taxpayer_type i)) "company"
  then compute_company_tax (adjusted_taxable_income i) (company_rate i)
  else compute_individual_tax_brackets (adjusted_taxable_income i) (individual_brackets i).

Definition net_tax_payable (i : tab3_input) : Q :=
  apply_credits_and_rebates (gross_tax i) (credits_wht i) (credits_foreign i) (rebates i).

Definition net_tax_after_provisional (i : tab3_input) : Q :=
  Py.max 0 (net_tax_payable i - provisional_tax_paid i).


(** A company with a profit of 40,000,000 before adjustments. *)
Definition profitable_company : tab3_input :=
  mk_tab3_input 250000000 90000000 100000000 10000000 30000000
    [5000000; 0; 2500000] [1500000; 0]
    4000000 1000000 3000000 500000 250000 2000000
    "company" (30 # 100) default_brackets.


(** ** The standalone script [uganda_tax_full_mvp.py]

    Its module-level computation: the thirty add-back inputs and the seven
    allowable inputs are added up, the flat 30% is applied, and the taxes
    already paid are taken off. *)

Module FullMvp.

Record input : Type := mk_input {
  pbit : Q;
  addback_inputs : list Q;
  allowable_inputs : list Q;
  provisional_taxes_paid : Q;
  withholding_taxes : Q
}.

(** [x1 + x2 + ... + xn], left to right. *)
Definition add_up (xs : list Q) : Q :=
  match xs with
  | [] => 0
  | x :: rest => fold_left Qplus rest x
  end.

Definition addbacks (i : input) : Q := add_up (addback_inputs i).

Definition allowables (i : input) : Q := add_up (allowable_inputs i).

Definition adjusted_profit (i : input) : Q := pbit i + addbacks i.

Definition chargeable_income (i : input) : Q := adjusted_profit i - allowables i.

Definition income_tax (i : input) : Q := Py.round2 (chargeable_income i * (30 # 100)).

Definition final_tax (i : input) : Q :=
  income_tax i - provisional_taxes_paid i - withholding_taxes i.

(** What the summary shows: the tax payable, or the refund due. *)
Inductive outcome : Type :=
| FinalTaxPayable (amount : Q)
| TaxRefundDue (amount : Q).

Definition summary (i : input) : outcome :=
  if Qle_bool 0 (final_tax i)
  then FinalTaxPayable (final_tax i)
  else TaxRefundDue (Qabs (final_tax i)).

End FullMvp.

(** ** The add-backs of [uganda_tax_full_mvp_streamlit_app.py]

    Lines 25 to 99 of the script: the dict [addbacks] is filled by seventy
    assignments [addbacks[key] = st.number_input(...)], one after the
    other, and [adjusted_profit = pbit + sum(addbacks.values())]. *)

Module FullMvpStreamlit.

(** The keys of the seventy assignments, in the order of the statements. *)
Definition addback_keys : list string :=
  [
    "Depreciation (Section 22(3)(b))";
    "Amortisation";
    "Redundancy";
    "Domestic/Private Expenditure (Section 22(3)(a))";
    "Capital Gain (Sections 22(1)(b), 47, 48)";
    "Rental Income Loss (Section 22(1)(c))";
    "Expenses Exceeding 50% of Rental Income (Section 22(2))";
    "Capital Nature Expenditure (Section 22(3)(b))";
    "Recoverable Expenditure (Section 22(3)(c))";
    "Income Tax Paid Abroad (Section 22(3)(d))";
    "Capitalised Income (Section 22(3)(e))";
    "Gift Cost not in Recipient Income (Section 22(3)(f))";
    "Fines or Penalties (Section 22(3)(g))";
    "Employee Retirement Contributions (Section 22(3)(h))";
    "Life Insurance Premiums (Section 22(3)(i))";
    "Pension Payments (Section 22(3)(j))";
    "Alimony / Allowance (Section 22(3)(k))";
    "Suppliers without TIN > UGX5M (Section 22(3)(l))";
    "EFRIS Suppliers w/o e-invoices (Section 22(3)(m))";
    "Debt Obligation Principal (Section 25)";
    "Interest on Capital Assets (Sections 22(3) & 50(2))";
    "Interest on Fixed Capital (Section 25(1))";
    "Bad Debts Recovered (Section 61)";
    "General Provision for Bad Debts (Section 24)";
    "Entertainment Income (Section 23)";
    "Meal & Refreshment Expenses (Section 23)";
    "Charitable Donations to Non-Exempt Orgs (Section 33(1))";
    "Charitable Donations >5% Chargeable Income (Section 33(3))";
    "Legal Fees";
    "Legal Expenses - Capital Items (Section 50)";
    "Legal Expenses - New Trade Rights";
    "Legal Expenses - Breach of Law";
    "Cost of Breach of Contract - Capital Account";
    "Legal Expenses on Breach of Contract - Capital Account";
    "Legal Expenses on Loan Renewals - Non-commercial";
    "Bad Debts by Senior Employee/Management";
    "General Provisions Bad Debts (FI Credit Classification)";
    "Loss on Sale of Fixed Assets (Section 22(3)(b))";
    "Loss on Other Capital Items (Section 22(3)(b))";
    "Expenditure on Share Capital Increase (Section 22(3)(b))";
    "Dividends Paid (Section 22(3)(d))";
    "Provision for Bad Debts (Non-Financial Institutions) (Section 24)";
    "Increase in Provision for Bad Debts (Section 24)";
    "Debt Collection Expenses related to Capital Expenditure";
    "Foreign Currency Debt Gains (Section 46(2))";
    "Costs incidental to Capital Asset (Stamp Duty, Section 50)";
    "Non-Business Expenses (Section 22)";
    "Miscellaneous Staff Costs";
    "Staff Costs - Commuting (Section 22(4)(b))";
    "First Time Work Permits";
    "Unrealised Foreign Exchange Losses (Section 46(3))";
    "Foreign Currency Debt Losses (Section 46)";
    "Education Expenditure (Non Section 32)";
    "Donations (Non Section 33)";
    "Decommissioning Expenditure by Licensee (Section 99(2))";
    "Telephone Costs (10%)";
    "Revaluation Loss";
    "Interest Expense on Treasury Bills (Section 139(e))";
    "Burial Expenses (Section 22(3)(b))";
    "Subscription (Section 22(3)(a))";
    "Interest on Directors Debit Balances (Section 22(3)(a))";
    "Entertainment Expenses (Section 23)";
    "Gifts (Section 22(3)(f))";
    "Dividends Paid (Section 22(3)(d))";
    "Income Carried to Reserve Fund (Section 22(3)(e))";
    "Impairment Losses on Loans and Advances";
    "Interest Expense on Treasury Bonds (Section 139(e))";
    "Staff Leave Provisions (Section 22(4)(b))";
    "Increase in Gratuity";
    "Balancing Charge (Sections 27(5) & 18(1))" ].

(** The dict after the assignments, [inputs] being the values of the
    seventy number inputs in the order of the statements. *)
Definition addbacks (inputs : list Q) : list (string * Q) :=
  fold_left (fun d kv => dict_set d (fst kv) (snd kv)) (combine addback_keys inputs) [].

Definition adjusted_profit (pbit : Q) (inputs : list Q) : Q :=
  pbit + Py.sum (map snd (addbacks inputs)).

End FullMvpStreamlit.

(** ** URA form schemas and the return builder *)

(** The values a payload holds. *)
Inductive pyval : Type :=
| PInt (z : Z)
| PFloat (q : Q)
| PStr (s : string).

(** What the builder can raise: the [KeyError] of the schema lookup, its
    own [ValueError] with its message, and the [ValueError] of [int] or
    [float] on a string that is not a numeral, kept with the name of the
    conversion and the string. *)
Inductive exn : Type :=
| KeyError (key : string)
| ValueError (msg : string)
| InvalidLiteral (conversion : string) (literal : string).

(** The interpreter's [int], [float] and [str] on payload values. *)
Record conversions : Type := mk_conversions {
  conv_int : pyval -> exn + pyval;
  conv_float : pyval -> exn + pyval;
  conv_str : pyval -> exn + pyval
}.

Definition URA_SCHEMAS : list (string * list (string * string)) :=
  [ ("DT-2001",
     [ ("TIN", "str"); ("Taxpayer Name", "str"); ("Period", "str");
       ("Year", "int"); ("Business Income (UGX)", "float");
       ("Allowable Deductions (UGX)", "float");
       ("Capital Allowances (UGX)", "float");
       ("Exemptions (UGX)", "float");
       ("Taxable Income (UGX)", "float");
       ("Gross Tax (UGX)", "float");
       ("WHT Credits (UGX)", "float");
       ("Foreign Tax Credit (UGX)", "float");
       ("Rebates (UGX)", "float");
       ("Net Tax Payable (UGX)", "float") ]);
    ("DT-2002",
     [ ("TIN", "str"); ("Entity Name", "str"); ("Period", "str");
       ("Year", "int"); ("Gross Turnover (UGX)", "float");
       ("COGS (UGX)", "float"); ("Operating Expenses (UGX)", "float");
       ("Other Income (UGX)", "float"); ("Other Expenses (UGX)", "float");
       ("Capital Allowances (UGX)", "float"); ("Exemptions (UGX)", "float");
       ("Taxable Income (UGX)", "float"); ("Gross Tax (UGX)", "float");
       ("WHT Credits (UGX)", "float"); ("Foreign Tax Credit (UGX)", "float");
       ("Rebates (UGX)", "float"); ("Net Tax Payable (UGX)", "float") ]) ].

(** The [if ftype == "int" ... elif ftype == "float" ... else ...] of the
    loop body. *)
Definition coerce (c : conversions) (ftype : string) (val : pyval) : exn + pyval :=
  if String.eqb ftype "int" then conv_int c val
  else if String.eqb ftype "float" then conv_float c val
  else conv_str c val.

Definition missing_field (field : string) : exn :=
  ValueError (String.append "Missing required field: " field).

(** The [for field, ftype in schema] loop; [out] is the dict built so
    far. *)
Fixpoint build_return (c : conversions) (schema : list (string * string))
         (payload out : list (string * pyval)) : exn + list (string * pyval) :=
  match schema with
  | [] => inr out
  | (field, ftype) :: rest =>
      match dict_get payload field with
      | None => inl (missing_field field)
      | Some val =>
          match coerce c ftype val with
          | inl e => inl e
          | inr v => build_return c rest payload (dict_set out field v)
          end
      end
  end.

(** The result is the one row of the returned frame: the fields of [out]
    with their values, in the order of the keys of [out]. *)
Definition validate_and_build_return (c : conversions) (form_code : string)
           (payload : list (string * pyval)) : exn + list (string * pyval) :=
  match dict_get URA_SCHEMAS form_code with
  | None => inl (KeyError form_code)
  | Some schema => build_return c schema payload []
  end.

(** A field of the schema and the field of the row built for it: same
    name, and the value is the payload's value for that name, converted to
    the declared type. *)
Definition coerced_field (c : conversions) (payload : list (string * pyval))
           (declared : string * string) (built : string * pyval) : Prop :=
  fst built = fst declared /\
  exists val, dict_get payload (fst declared) = Some val /\
              coerce c (snd declared) val = inr (snd built).

(** Every field of [fields] is in the payload with a value that converts
    to its declared type. *)
Definition all_coercible (c : conversions) (payload : list (string * pyval))
           (fields : list (string * string)) : Prop :=
  forall field ftype, In (field, ftype) fields ->
    exists val v, dict_get payload field = Some val /\ coerce c ftype val = inr v.

(** *** Payloads that are already typed

    A value is of the type its field declares: an int for ["int"], a float
    for ["float"], a string for any other declared type. *)
Definition of_declared_type (ftype : string) (v : pyval) : bool :=
  if String.eqb ftype "int" then match v with PInt _ => true | _ => false end
  else if String.eqb ftype "float" then match v with PFloat _ => true | _ => false end
  else match v with PStr _ => true | _ => false end.

(** [int] on an int, [float] on a float and [str] on a string return their
    argument. *)
Definition conversions_keep_typed (c : conversions) : Prop :=
  (forall z, conv_int c (PInt z) = inr (PInt z)) /\
  (forall q, conv_float c (PFloat q) = inr (PFloat q)) /\
  (forall s, conv_str c (PStr s) = inr (PStr s)).

(** The fields of a registered form, [[]] for any other code. *)
Definition schema_fields (form_code : string) : list (string * string) :=
  match dict_get URA_SCHEMAS form_code with
  | Some fields => fields
  | None => []
  end.

(** Converting a converted value again gives the same value: what [int],
    [float] and [str] do on an int, a float and a string. *)
Definition conversions_stable (c : conversions) : Prop :=
  forall (ftype : string) (val v : pyval),
    coerce c ftype val = inr v -> coerce c ftype v = inr v.

(** *** The conversions on literals

    [int], [float] and [str] on the values above.  A string converts to a
    number when, white space at its ends apart, it is a signed decimal
    numeral, with a fractional part for [float]; the other spellings the
    interpreter accepts (underscores, exponents, [inf], [nan]) are left
    out.  [str] writes a float in fixed notation. *)

Definition digit_of (c : ascii) : option Z :=
  let n := nat_of_ascii c in
  if (48 <=? n)%nat && (n <=? 57)%nat then Some (Z.of_nat (n - 48)) else None.

Fixpoint parse_digits (s : string) (acc : Z) : option Z :=
  match s with
  | EmptyString => Some acc
  | String c s' =>
      match digit_of c with
      | Some d => parse_digits s' (10 * acc + d)%Z
      | None => None
      end
  end.

Definition parse_unsigned (s : string) : option Z :=
  match s with
  | EmptyString => None
  | _ => parse_digits s 0%Z
  end.

Definition parse_int_literal (s : string) : option Z :=
  match s with
  | String "+" s' => parse_unsigned s'
  | String "-" s' => option_map Z.opp (parse_unsigned s')
  | _ => parse_unsigned s
  end.

(** The part of [s] before the first point, and the part after it if there
    is a point. *)
Fixpoint split_point (s : string) : string * option string :=
  match s with
  | EmptyString => (EmptyString, None)
  | String "." s' => (EmptyString, Some s')
  | String c s' => let (a, b) := split_point s' in (String c a, b)
  end.

Definition parse_unsigned_decimal (s : string) : option Q :=
  match split_point s with
  | (ip, None) => option_map inject_Z (parse_unsigned ip)
  | (ip, Some fp) =>
      match ip, fp with
      | EmptyString, EmptyString => None
      | _, _ =>
          match parse_digits ip 0%Z, parse_digits fp 0%Z with
          | Some i, Some f =>
              Some (inject_Z i + Qmake f (Pos.pow 10 (Pos.of_nat (String.length fp))))
          | _, _ => None
          end
      end
  end.

Definition parse_float_literal (s : string) : option Q :=
  match s with
  | String "+" s' => parse_unsigned_decimal s'
  | String "-" s' => option_map Qopp (parse_unsigned_decimal s')
  | _ => parse_unsigned_decimal s
  end.

Definition decimal_of_Z (z : Z) : string := NilZero.string_of_int (Z.to_int z).

(** The digits of [r / d] after the point, at most [fuel] of them. *)
Fixpoint fraction_digits (fuel : nat) (r d : Z) : string :=
  match fuel with
  | O => EmptyString
  | S fuel' =>
      if (r =? 0)%Z then EmptyString
      else String.append (decimal_of_Z (10 * r / d)) (fraction_digits fuel' ((10 * r) mod d) d)
  end.

Definition float_repr (q : Q) : string :=
  let n := Z.abs (Qnum q) in
  let d := Zpos (Qden q) in
  let sign := if (Qnum q <? 0)%Z then "-" else "" in
  let frac := fraction_digits 17 (n mod d) d in
  String.append sign
    (String.append (decimal_of_Z (n / d))
       (String.append "." (match frac with EmptyString => "0" | _ => frac end))).

Definition literal_int (v : pyval) : exn + pyval :=
  match v with
  | PInt z => inr (PInt z)
  | PFloat q => inr (PInt (Z.quot (Qnum q) (Zpos (Qden q))))
  | PStr s =>
      match parse_int_literal (strip s) with
      | Some z => inr (PInt z)
      | None => inl (InvalidLiteral "int" s)
      end
  end.

Definition literal_float (v : pyval) : exn + pyval :=
  match v with
  | PInt z => inr (PFloat (inject_Z z))
  | PFloat q => inr (PFloat q)
  | PStr s =>
      match parse_float_literal (strip s) with
      | Some q => inr (PFloat q)
      | None => inl (InvalidLiteral "float" s)
      end
  end.

Definition literal_str (v : pyval) : exn + pyval :=
  match v with
  | PInt z => inr (PStr (decimal_of_Z z))
  | PFloat q => inr (PStr (float_repr q))
  | PStr s => inr (PStr s)
  end.

Definition literal_conversions : conversions :=
  mk_conversions literal_int literal_float literal_str.

(** A DT-2001 payload filled in from the last field of the form to the
    first, with a numeral typed as text, an integer amount and an integer
    TIN. *)
Definition reversed_dt2001_payload : list (string * pyval) :=
  [ ("Net Tax Payable (UGX)", PFloat 24000); ("Rebates (UGX)", PFloat 0);
    ("Foreign Tax Credit (UGX)", PFloat 0); ("WHT Credits (UGX)", PFloat 6000);
    ("Gross Tax (UGX)", PFloat 30000); ("Taxable Income (UGX)", PFloat 3120000);
    ("Exemptions (UGX)", PFloat 0); ("Capital Allowances (UGX)", PStr "80000.5");
    ("Allowable Deductions (UGX)", PInt 0); ("Business Income (UGX)", PFloat 3200000);
    ("Year", PStr "2024"); ("Period", PStr "FY2024"); ("Taxpayer Name", PStr "A. Okello");
    ("TIN", PInt 1000123456) ].

(** A DT-2001 payload with its fields in the order of the form, a string,
    an int or a float for each as the form declares. *)
Definition typed_dt2001_payload : list (string * pyval) :=
  [ ("TIN", PStr "1000123456"); ("Taxpayer Name", PStr "A. Okello");
    ("Period", PStr "FY2024"); ("Year", PInt 2024);
    ("Business Income (UGX)", PFloat 3200000);
    ("Allowable Deductions (UGX)", PFloat 0);
    ("Capital Allowances (UGX)", PFloat 80000); ("Exemptions (UGX)", PFloat 0);
    ("Taxable Income (UGX)", PFloat 3120000); ("Gross Tax (UGX)", PFloat 30000);
    ("WHT Credits (UGX)", PFloat 6000); ("Foreign Tax Credit (UGX)", PFloat 0);
    ("Rebates (UGX)", PFloat 0); ("Net Tax Payable (UGX)", PFloat 24000) ].

(** ** Structural contract of a bracket table

    Thresholds strictly ascending. *)

Definition ascending (brackets : list tier) : Prop :=
  StronglySorted (fun a b => threshold a < threshold b) brackets.

(** Thresholds ascending, ties allowed: what a sort by threshold delivers. *)
Definition weakly_ascending (brackets : list tier) : Prop :=
  StronglySorted (fun a b => threshold a <= threshold b) brackets.

(** No two tiers of the table have the same threshold. *)
Definition distinct_thresholds (brackets : list tier) : Prop :=
  ForallOrdPairs (fun a b => ~ threshold a == threshold b) brackets.

(** Thresholds are amounts of money, rates are fractions. *)
Definition thresholds_nonneg (brackets : list tier) : Prop :=
  Forall (fun b => 0 <= threshold b) brackets.

Definition rates_in_unit (brackets : list tier) : Prop :=
  Forall (fun b => 0 <= rate b <= 1) brackets.

(** Each fixed amount is the fixed amount of the tier below plus the tax
    of the band between the two thresholds, in full. *)
Fixpoint running_sums (b : tier) (rest : list tier) : Prop :=
  match rest with
  | [] => True
  | b' :: rest' =>
      get_fixed b' == get_fixed b + (threshold b' - threshold b) * rate b /\
      running_sums b' rest'
  end.

(** Cumulative fixed base, read as exact running sums: the first fixed
    amount is 0 and each next one adds the tax of the band below, with no
    rounding. *)
Definition cumulative_fixed_exact (brackets : list tier) : Prop :=
  match brackets with
  | [] => True
  | b :: rest => get_fixed b == 0 /\ running_sums b rest
  end.

(** What the calculator does to the value the walk leaves in [tax]. *)
Definition floor_and_round (x : Q) : Q := Py.round2 (Py.max 0 x).

(** ** The calculators on binary64 floats

    The same calculators on the machine floats the interpreter uses.  They
    serve to run the development's worked values and counterexamples in
    float arithmetic, and to state what holds of every float, NaN and the
    infinities included. *)

Module Binary64.

Set Warnings "-inexact-float".
Local Open Scope float_scope.

Definition max (a b : float) : float := if a <? b then b else a.

Definition min (a b : float) : float := if b <? a then b else a.

(** The rational a finite float denotes. *)
Definition to_Q (x : float) : Q :=
  match Prim2SF x with
  | S754_finite s m e => ((if s then -1 else 1) * (inject_Z (Zpos m) * 2 ^ e))%Q
  | _ => 0%Q
  end.

(** The float of a whole number below [2^53] in absolute value. *)
Definition of_Z (n : Z) : float :=
  if (n <? 0)%Z then - of_uint63 (Uint63.of_Z (- n)) else of_uint63 (Uint63.of_Z n).

(** [round(x, 2)]: the float nearest to the decimal rounding of the value
    of [x] to hundredths, ties to even; an infinity or a NaN is returned as
    it is, and so is a float from [2^53 / 100] upwards, where floats are
    more than a hundredth apart. *)
Definition round2 (x : float) : float :=
  match Prim2SF x with
  | S754_finite _ _ _ =>
      let n := Py.round_half_even (to_Q x * 100)%Q in
      if (Z.abs n <? 2 ^ 53)%Z
      then (if (n =? 0)%Z then x * 0 else of_Z n / 100)
      else x
  | _ => x
  end.

Record tier : Type := mk_tier {
  threshold : float;
  rate : float;
  fixed : option float
}.

Definition get_fixed (b : tier) : float :=
  match fixed b with
  | Some f => f
  | None => 0
  end.

Definition next_threshold_of (rest : list tier) : option float :=
  match rest with
  | [] => None
  | b' :: _ => Some (threshold b')
  end.

Definition tier_candidate (taxable_income : float) (b : tier) (next_threshold : option float) : float :=
  let upper :=
    match next_threshold with
    | None => taxable_income
    | Some nt => min taxable_income nt
    end in
  let taxable_slice := max 0 (upper - threshold b) in
  get_fixed b + taxable_slice * rate b.

Fixpoint bracket_loop (taxable_income : float) (brackets : list tier) (tax : float) : float :=
  match brackets with
  | [] => tax
  | b :: rest =>
      if threshold b <? taxable_income
      then bracket_loop taxable_income rest
             (tier_candidate taxable_income b (next_threshold_of rest))
      else tax
  end.

(** The argument of [round] in [compute_individual_tax_brackets], for a
    positive taxable income. *)
Definition unrounded_individual_tax (taxable_income : float) (brackets : list tier) : float :=
  max 0 (bracket_loop taxable_income brackets 0).

(** The argument of [round] in [compute_company_tax], for a positive
    taxable income. *)
Definition unrounded_company_tax (taxable_income company_rate : float) : float :=
  taxable_income * company_rate.

Definition compute_individual_tax_brackets (taxable_income : float) (brackets : list tier) : float :=
  if taxable_income <=? 0 then 0
  else round2 (max 0 (bracket_loop taxable_income brackets 0)).

Definition compute_company_tax (taxable_income company_rate : float) : float :=
  if taxable_income <=? 0 then 0
  else round2 (taxable_income * company_rate).

Definition apply_credits_and_rebates (gross_tax credits_wht credits_foreign rebates : float) : float :=
  max 0 (gross_tax - credits_wht - credits_foreign - rebates).

Definition default_brackets : list tier :=
  [ mk_tier 0 0 (Some 0);
    mk_tier 2820000 0.10 (Some 0);
    mk_tier 4020000 0.20 (Some 120000);
    mk_tier 4920000 0.30 (Some 360000);
    mk_tier 10000000 0.40 (Some 1830000) ].

(** A table of three tiers whose fixed amounts are the running sums of the
    bands below, to the last bit: [0.07499999999999993 * 1] for the second
    tier and [0.07499999999999993 + 0.1 * 3 = 0.37499999999999994] for the
    third, where [0.1] stands for the float of that literal. *)
Definition half_cent_brackets : list tier :=
  [ mk_tier 0 0.07499999999999993 (Some 0);
    mk_tier 1 0.1 (Some 0.07499999999999993);
    mk_tier 4 0 (Some 0.37499999999999994) ].

End Binary64.

(** The tier of rationals that a tier of floats denotes. *)
Definition tier_value (b : Binary64.tier) : tier :=
  mk_tier (Binary64.to_Q (Binary64.threshold b)) (Binary64.to_Q (Binary64.rate b))
          (option_map Binary64.to_Q (Binary64.fixed b)).

(** The table [Binary64.half_cent_brackets], each float given by its
    value. *)
Definition half_cent_values : list tier :=
  map tier_value Binary64.half_cent_brackets.

(** ** The calculators in binary64 arithmetic, on the values of the floats

    [Binary64] computes, but the machine floats come with no laws of
    arithmetic to reason with.  Here a finite float is the rational it
    denotes, and an operation of the source is the exact operation followed
    by [nearest], the rounding of a rational to the nearest binary64 value:
    53 significant bits, ties to the even significand, gradual underflow
    down to [2^-1074].  The infinities and NaN are not values of this
    module: it describes the program on amounts below [2^1024]. *)

Module F64.

Definition pow2 (e : Z) : Q := 2 ^ e.

(** The integer [e] with [2^e <= x < 2^(e+1)], for a positive [x]. *)
Definition ilog2 (x : Q) : Z :=
  let e0 := (Z.log2 (Qnum x) - Z.log2 (Zpos (Qden x)))%Z in
  if Qle_bool (pow2 e0) x then e0 else (e0 - 1)%Z.

(** The exponent of the last place of the floats of the binade of [x]. *)
Definition ulp_exponent (x : Q) : Z := Z.max (ilog2 (Qabs x) - 52) (-1074).

(** The binary64 value nearest to [x]; also what a decimal literal or a
    number of the brackets JSON is read as. *)
Definition nearest (x : Q) : Q :=
  if Qeq_bool x 0 then 0
  else
    let s := ulp_exponent x in
    inject_Z (Py.round_half_even (x / pow2 s)) * pow2 s.

(** [x] is the value of a float. *)
Definition binary64 (x : Q) : Prop := nearest x == x.

Definition add (a b : Q) : Q := nearest (a + b).

Definition sub (a b : Q) : Q := nearest (a - b).

Definition mul (a b : Q) : Q := nearest (a * b).

(** [round(x, 2)]: the float nearest to the decimal rounding of [x]. *)
Definition round2 (x : Q) : Q := nearest (Py.round2 x).

Definition tier_candidate (taxable_income : Q) (b : tier) (next_threshold : option Q) : Q :=
  let upper :=
    match next_threshold with
    | None => taxable_income
    | Some nt => Py.min taxable_income nt
    end in
  let taxable_slice := Py.max 0 (sub upper (threshold b)) in
  add (get_fixed b) (mul taxable_slice (rate b)).

Fixpoint bracket_loop (taxable_income : Q) (brackets : list tier) (tax : Q) : Q :=
  match brackets with
  | [] => tax
  | b :: rest =>
      if Py.lt (threshold b) taxable_income
      then bracket_loop taxable_income rest
             (tier_candidate taxable_income b (next_threshold_of rest))
      else tax
  end.

Definition compute_individual_tax_brackets (taxable_income : Q) (brackets : list tier) : Q :=
  if Qle_bool taxable_income 0 then 0
  else round2 (Py.max 0 (bracket_loop taxable_income brackets 0)).

Definition compute_company_tax (taxable_income company_rate : Q) : Q :=
  if Qle_bool taxable_income 0 then 0
  else round2 (mul taxable_income company_rate).

Definition apply_credits_and_rebates (gross_tax credits_wht credits_foreign rebates : Q) : Q :=
  Py.max 0 (sub (sub (sub gross_tax credits_wht) credits_foreign) rebates).

(** The table of the sidebar, its rates the floats of [0.10] to [0.40]. *)
Definition default_brackets : list tier :=
  [ mk_tier 0 0 (Some 0);
    mk_tier 2820000 (nearest (10 # 100)) (Some 0);
    mk_tier 4020000 (nearest (20 # 100)) (Some 120000);
    mk_tier 4920000 (nearest (30 # 100)) (Some 360000);
    mk_tier 10000000 (nearest (40 # 100)) (Some 1830000) ].

(** What the calculator does to the value the walk leaves in [tax]. *)
Definition floor_and_round (x : Q) : Q := round2 (Py.max 0 x).

(** The formula of tier [b] at an income [T] of its band. *)
Definition band_formula (b : tier) (T : Q) : Q :=
  add (get_fixed b) (mul (Py.max 0 (sub T (threshold b))) (rate b)).

(** Cumulative fixed base: the fixed amount of tier [i] is the tax the
    calculator returns at the threshold of tier [i] on the tiers [0..i-1].
    [prefix] is the part of the table before [rest]. *)
Fixpoint cumulative_fixed_from (prefix rest : list tier) : Prop :=
  match rest with
  | [] => True
  | b :: rest' =>
      get_fixed b == compute_individual_tax_brackets (threshold b) prefix /\
      cumulative_fixed_from (prefix ++ [b]) rest'
  end.

Definition cumulative_fixed (brackets : list tier) : Prop :=
  cumulative_fixed_from [] brackets.

(** The same contract, tier by tier: each fixed amount is the floored and
    rounded formula of the tier below at the threshold of the tier. *)
Fixpoint fixed_chain (b : tier) (rest : list tier) : Prop :=
  match rest with
  | [] => True
  | b' :: rest' =>
      get_fixed b' == floor_and_round (band_formula b (threshold b')) /\
      fixed_chain b' rest'
  end.

(** An amount the calculator can have returned: not negative and in whole
    hundredths, [round(f, 2)] being [f]. *)
Definition money_amount (f : Q) : Prop := 0 <= f /\ round2 f == f.

(** The default table with the fixed amounts of its two upper tiers
    replaced by what the calculator returns at their thresholds, 300,000
    and 1,824,000. *)
Definition cumulative_brackets : list tier :=
  [ mk_tier 0 0 (Some 0);
    mk_tier 2820000 (nearest (10 # 100)) (Some 0);
    mk_tier 4020000 (nearest (20 # 100)) (Some 120000);
    mk_tier 4920000 (nearest (30 # 100)) (Some 300000);
    mk_tier 10000000 (nearest (40 # 100)) (Some 1824000) ].

End F64.

(** * Facts about the builtins *)

Lemma lt_true_iff (a b : Q) : Py.lt a b = true <-> a < b.
Proof.
  unfold Py.lt. rewrite negb_true_iff.
  split; intro H.
  - apply Qnot_le_lt. intro Hle. apply Qle_bool_iff in Hle. congruence.
  - destruct (Qle_bool b a) eqn:E; [|reflexivity].
    apply Qle_bool_iff in E. exfalso. apply (Qlt_not_le _ _ H E).
Qed.

Lemma lt_false_iff (a b : Q) : Py.lt a b = false <-> b <= a.
Proof.
  unfold Py.lt. rewrite negb_false_iff. apply Qle_bool_iff.
Qed.

Lemma lt_cases (a b : Q) :
  (Py.lt a b = true /\ a < b) \/ (Py.lt a b = false /\ b <= a).
Proof.
  destruct (Py.lt a b) eqn:E.
  - left. split; [reflexivity | now apply lt_true_iff].
  - right. split; [reflexivity | now apply lt_false_iff].
Qed.

(** Case analysis on a test [Py.lt a b] occurring in the goal. *)
Ltac case_lt a b :=
  let H := fresh "Hlt" in
  let E := fresh "Elt" in
  destruct (lt_cases a b) as [[E H] | [E H]]; rewrite ?E in *.

Lemma max0_nonneg (x : Q) : 0 <= Py.max 0 x.
Proof.
  unfold Py.max. case_lt 0 x; lra.
Qed.

Lemma max0_of_pos (x : Q) : 0 < x -> Py.max 0 x = x.
Proof.
  intro H. unfold Py.max. apply lt_true_iff in H. now rewrite H.
Qed.


Lemma max0_of_nonneg (x : Q) : 0 <= x -> Py.max 0 x == x.
Proof.
  intro H. unfold Py.max. case_lt 0 x; lra.
Qed.

Lemma max0_mono (x y : Q) : x <= y -> Py.max 0 x <= Py.max 0 y.
Proof.
  intro H. unfold Py.max. case_lt 0 x; case_lt 0 y; lra.
Qed.

Lemma min_of_le (a b : Q) : a <= b -> Py.min a b = a.
Proof.
  intro H. unfold Py.min. apply lt_false_iff in H. now rewrite H.
Qed.

Lemma min_of_gt (a b : Q) : b < a -> Py.min a b = b.
Proof.
  intro H. unfold Py.min. apply lt_true_iff in H. now rewrite H.
Qed.

(** ** Rounding *)

Lemma floor_bounds (x : Q) : inject_Z (Qfloor x) <= x < inject_Z (Qfloor x) + 1.
Proof.
  split.
  - apply Qfloor_le.
  - pose proof (Qlt_floor x) as H. rewrite inject_Z_plus in H. exact H.
Qed.

Lemma round_half_even_cases (x : Q) :
  let f := Qfloor x in
  (x - inject_Z f < 1 # 2 /\ Py.round_half_even x = f) \/
  (x - inject_Z f == 1 # 2 /\ Py.round_half_even x = (if Z.even f then f else (f + 1)%Z)) \/
  (1 # 2 < x - inject_Z f /\ Py.round_half_even x = (f + 1)%Z).
Proof.
  intro f. unfold Py.round_half_even. fold f.
  destruct (Qcompare_spec (x - inject_Z f) (1 # 2)) as [H | H | H]; auto.
Qed.

Lemma round_half_even_range (x : Q) :
  (Qfloor x <= Py.round_half_even x <= Qfloor x + 1)%Z.
Proof.
  destruct (round_half_even_cases x) as [[_ E] | [[_ E] | [_ E]]]; rewrite E;
    try destruct (Z.even (Qfloor x)); lia.
Qed.

#[global] Instance round_half_even_comp : Proper (Qeq ==> eq) Py.round_half_even.
Proof.
  intros x y E. unfold Py.round_half_even.
  rewrite (Qfloor_comp x y E).
  assert (E' : x - inject_Z (Qfloor y) == y - inject_Z (Qfloor y)) by (rewrite E; reflexivity).
  now rewrite (Qcompare_comp _ _ E' (1 # 2) (1 # 2) (Qeq_refl _)).
Qed.

Lemma round_half_even_mono (x y : Q) :
  x <= y -> (Py.round_half_even x <= Py.round_half_even y)%Z.
Proof.
  intro Hxy.
  pose proof (Qfloor_resp_le x y Hxy) as Hf.
  destruct (Z.eq_dec (Qfloor x) (Qfloor y)) as [E | NE].
  - destruct (round_half_even_cases x) as [[Hx Ex] | [[Hx Ex] | [Hx Ex]]];
      destruct (round_half_even_cases y) as [[Hy Ey] | [[Hy Ey] | [Hy Ey]]];
      rewrite Ex, Ey; rewrite E in *;
      try (destruct (Z.even (Qfloor y)); lia);
      exfalso; lra.
  - pose proof (round_half_even_range x). pose proof (round_half_even_range y). lia.
Qed.

Lemma round_half_even_Z (n : Z) : Py.round_half_even (inject_Z n) = n.
Proof.
  destruct (round_half_even_cases (inject_Z n)) as [[H E] | [[H E] | [H E]]];
    rewrite Qfloor_Z in *; [exact E | exfalso; lra | exfalso; lra].
Qed.

#[global] Instance round2_comp : Proper (Qeq ==> Qeq) Py.round2.
Proof.
  intros x y E. unfold Py.round2.
  assert (E' : x * 100 == y * 100) by (rewrite E; reflexivity).
  rewrite (round_half_even_comp _ _ E'). reflexivity.
Qed.

Lemma hundredths_le (m n : Z) : (m <= n)%Z -> m # 100 <= n # 100.
Proof.
  intro H. unfold Qle. simpl. lia.
Qed.

Lemma round2_mono (x y : Q) : x <= y -> Py.round2 x <= Py.round2 y.
Proof.
  intro H. unfold Py.round2. apply hundredths_le, round_half_even_mono. lra.
Qed.

Lemma round2_hundredths (n : Z) : Py.round2 (n # 100) = n # 100.
Proof.
  unfold Py.round2.
  assert (E : (n # 100) * 100 == inject_Z n).
  { unfold Qeq, inject_Z. simpl. lia. }
  now rewrite (round_half_even_comp _ _ E), round_half_even_Z.
Qed.

Lemma round2_idem (x : Q) : Py.round2 (Py.round2 x) = Py.round2 x.
Proof.
  unfold Py.round2 at 2 3. apply round2_hundredths.
Qed.

Lemma round2_0 : Py.round2 0 == 0.
Proof. reflexivity. Qed.

Lemma round2_nonneg (x : Q) : 0 <= x -> 0 <= Py.round2 x.
Proof.
  intro H. rewrite <- round2_0. now apply round2_mono.
Qed.

Lemma round2_int (n : Z) : Py.round2 (inject_Z n) == inject_Z n.
Proof.
  assert (E : inject_Z n == (n * 100 # 100)).
  { unfold Qeq, inject_Z. simpl. lia. }
  rewrite E at 1. rewrite round2_hundredths. symmetry. exact E.
Qed.

(** * The bracket loop *)

Lemma bracket_loop_nil (T tax : Q) : bracket_loop T [] tax = tax.
Proof. reflexivity. Qed.

(** The first tier not exceeded ends the walk. *)
Lemma bracket_loop_break (T tax : Q) (b : tier) (rest : list tier) :
  T <= threshold b -> bracket_loop T (b :: rest) tax = tax.
Proof.
  intro H. simpl. apply lt_false_iff in H. now rewrite H.
Qed.

Lemma bracket_loop_step (T tax : Q) (b : tier) (rest : list tier) :
  threshold b < T ->
  bracket_loop T (b :: rest) tax =
  bracket_loop T rest (tier_candidate T b (next_threshold_of rest)).
Proof.
  intro H. simpl. apply lt_true_iff in H. now rewrite H.
Qed.

(** Every exceeded tier overwrites [tax]: after a run of exceeded tiers only
    the candidate of the last one is left. *)
Lemma bracket_loop_exceeded (T : Q) (pre : list tier) (b : tier) (rest : list tier) (tax : Q) :
  Forall (fun a => threshold a < T) (pre ++ [b]) ->
  bracket_loop T (pre ++ b :: rest) tax =
  bracket_loop T rest (tier_candidate T b (next_threshold_of rest)).
Proof.
  revert tax. induction pre as [| a pre IH]; intros tax H.
  - simpl in H. inversion H; subst. now apply bracket_loop_step.
  - simpl in H. inversion H as [| ? ? Ha Hrest]; subst.
    change ((a :: pre) ++ b :: rest) with (a :: (pre ++ b :: rest)).
    rewrite (bracket_loop_step _ _ _ _ Ha). now apply IH.
Qed.

(** The candidate of a tier whose successor is not exceeded. *)
Lemma tier_candidate_within (T : Q) (b : tier) (nt : option Q) :
  threshold b < T ->
  match nt with Some t => T <= t | None => True end ->
  tier_candidate T b nt = get_fixed b + (T - threshold b) * rate b.
Proof.
  intros Hb Hn. unfold tier_candidate.
  assert (E : match nt with None => T | Some t => Py.min T t end = T).
  { destruct nt as [t |]; [now apply min_of_le | reflexivity]. }
  rewrite E. rewrite max0_of_pos by lra. reflexivity.
Qed.

Lemma ascending_prefix_below (pre : list tier) (lo hi : tier) (post : list tier) :
  ascending (pre ++ lo :: hi :: post) ->
  Forall (fun a => threshold a < threshold hi) (pre ++ [lo]).
Proof.
  unfold ascending. induction pre as [| a pre IH]; simpl; intro H.
  - inversion H as [| ? ? _ Hall]; subst. inversion Hall; subst.
    constructor; [assumption | constructor].
  - inversion H as [| ? ? Hs Hall]; subst. constructor.
    + rewrite Forall_forall in Hall. apply Hall.
      apply in_or_app. right. right. now left.
    + now apply IH.
Qed.

(** * Progressive calculator: worked values and edge cases *)

Lemma bracket_loop_none_exceeded (T tax : Q) (brackets : list tier) :
  Forall (fun b => T <= threshold b) brackets ->
  bracket_loop T brackets tax = tax.
Proof.
  intro H. destruct H as [| b rest Hb _]; [reflexivity | now apply bracket_loop_break].
Qed.

Lemma compute_none_exceeded (T : Q) (brackets : list tier) :
  Forall (fun b => T <= threshold b) brackets ->
  compute_individual_tax_brackets T brackets == 0.
Proof.
  intro H. unfold compute_individual_tax_brackets.
  destruct (Qle_bool T 0); [reflexivity |].
  rewrite (bracket_loop_none_exceeded T 0 brackets H). reflexivity.
Qed.

(** C10.  On an empty tier table the progressive calculator returns 0 for
    every taxable income, positive ones included, and raises nothing; more
    generally the result is 0 whenever no tier has a threshold strictly
    below the taxable income. *)
Theorem no_tier_below_gives_zero :
  (forall T : Q, compute_individual_tax_brackets T [] == 0) /\
  (forall (T : Q) (brackets : list tier),
      Forall (fun b => T <= threshold b) brackets ->
      compute_individual_tax_brackets T brackets == 0).
Proof.
  split.
  - intro T. apply compute_none_exceeded. constructor.
  - exact compute_none_exceeded.
Qed.

Lemma no_tier_below_gives_zero_witness :
  Forall (fun b => 5 <= threshold b) [mk_tier 10 (1 # 2) (Some 7); mk_tier 20 1 None] /\
  compute_individual_tax_brackets 5 [mk_tier 10 (1 # 2) (Some 7); mk_tier 20 1 None] == 0.
Proof.
  assert (H : Forall (fun b => 5 <= threshold b)
                [mk_tier 10 (1 # 2) (Some 7); mk_tier 20 1 None]).
  { repeat constructor; simpl; lra. }
  split; [exact H | exact (proj2 no_tier_below_gives_zero 5 _ H)].
Defined.

(** C3.  On a table with strictly ascending thresholds, a taxable income
    equal to the threshold of a tier is taxed with the formula of the tier
    just below it: the comparison is strict, so the walk stops at the tier
    whose threshold is reached.  With the default table, 4,020,000 gives
    120,000.00, the value of the 10% tier, which is also
    120,000 + 0.20 * (4,020,000 - 4,020,000); and 4,920,000 gives the
    300,000.00 of the 20% tier, not the 360,000 the 30% tier starts from. *)
Theorem exact_threshold_uses_lower_tier :
  (forall (pre : list tier) (lo hi : tier) (post : list tier) (T : Q),
      ascending (pre ++ lo :: hi :: post) ->
      T == threshold hi ->
      0 < T ->
      bracket_loop T (hi :: post) (tier_candidate T lo (Some (threshold hi)))
        = tier_candidate T lo (Some (threshold hi)) /\
      compute_individual_tax_brackets T (pre ++ lo :: hi :: post)
        == Py.round2 (Py.max 0 (get_fixed lo + (T - threshold lo) * rate lo))) /\
  compute_individual_tax_brackets 4020000 default_brackets == 120000 /\
  compute_individual_tax_brackets 4020000 default_brackets
    == 0 + (10 # 100) * (4020000 - 2820000) /\
  compute_individual_tax_brackets 4020000 default_brackets
    == 120000 + (20 # 100) * (4020000 - 4020000) /\
  compute_individual_tax_brackets 4920000 default_brackets
    == 120000 + (20 # 100) * (4920000 - 4020000) /\
  ~ compute_individual_tax_brackets 4920000 default_brackets
    == 360000 + (30 # 100) * (4920000 - 4920000).
Proof.
  split; [| do 4 (split; [vm_compute; reflexivity |]);
            intro H; vm_compute in H; discriminate H].
  intros pre lo hi post T Hasc HT Hpos.
  pose proof (ascending_prefix_below _ _ _ _ Hasc) as Hbelow.
  assert (Hbelow' : Forall (fun a => threshold a < T) (pre ++ [lo])).
  { eapply Forall_impl; [| exact Hbelow]. simpl. intros a Ha. lra. }
  assert (Hlo : threshold lo < T).
  { rewrite Forall_forall in Hbelow'. apply Hbelow'.
    apply in_or_app. right. now left. }
  assert (Hstop : bracket_loop T (hi :: post) (tier_candidate T lo (Some (threshold hi)))
                  = tier_candidate T lo (Some (threshold hi))).
  { apply bracket_loop_break. lra. }
  split; [exact Hstop |].
  unfold compute_individual_tax_brackets.
  destruct (Qle_bool T 0) eqn:E0.
  { apply Qle_bool_iff in E0. exfalso. lra. }
  rewrite (bracket_loop_exceeded T pre lo (hi :: post) 0 Hbelow').
  simpl next_threshold_of. rewrite Hstop.
  rewrite tier_candidate_within; [reflexivity | exact Hlo | lra].
Qed.

Lemma exact_threshold_uses_lower_tier_witness :
  compute_individual_tax_brackets 4020000
    ([mk_tier 0 0 (Some 0)] ++
     mk_tier 2820000 (10 # 100) (Some 0) :: mk_tier 4020000 (20 # 100) (Some 120000) ::
     [mk_tier 4920000 (30 # 100) (Some 360000); mk_tier 10000000 (40 # 100) (Some 1830000)])
  == Py.round2 (Py.max 0 (0 + (4020000 - 2820000) * (10 # 100))).
Proof.
  refine (proj2 (proj1 exact_threshold_uses_lower_tier
            [mk_tier 0 0 (Some 0)]
            (mk_tier 2820000 (10 # 100) (Some 0))
            (mk_tier 4020000 (20 # 100) (Some 120000))
            [mk_tier 4920000 (30 # 100) (Some 360000); mk_tier 10000000 (40 # 100) (Some 1830000)]
            4020000 _ _ _)).
  - unfold ascending. repeat constructor; simpl; reflexivity.
  - reflexivity.
  - reflexivity.
Defined.

(** C4.  With the default table, taxable income 5,000,000 gives gross tax
    384,000.00, which is 360,000 + 0.30 * (5,000,000 - 4,920,000). *)
Theorem progressive_boundary_5000000 :
  compute_individual_tax_brackets 5000000 default_brackets == 384000 /\
  compute_individual_tax_brackets 5000000 default_brackets
    == Py.round2 (360000 + (30 # 100) * (5000000 - 4920000)) /\
  360000 + (30 # 100) * (5000000 - 4920000) == 384000.
Proof.
  repeat split; reflexivity.
Qed.

(** * Flat rate *)



(** * Reduction pipeline: floors *)

(** C1.  In the tab-3 pipeline the chargeable income, the taxable income,
    the net tax payable and the net tax after provisional payments are each
    at least 0 for every input, whatever the size of the amounts taken off.
    The standalone script has no floor: a negative final tax is reported as
    a refund due. *)
Theorem tab3_pipeline_floors :
  (forall i : tab3_input,
      0 <= chargeable_income i /\
      0 <= adjusted_taxable_income i /\
      0 <= net_tax_payable i /\
      0 <= net_tax_after_provisional i) /\
  (forall j : FullMvp.input,
      FullMvp.chargeable_income j
        == FullMvp.pbit j + FullMvp.add_up (FullMvp.addback_inputs j)
           - FullMvp.add_up (FullMvp.allowable_inputs j)) /\
  (forall j : FullMvp.input,
      FullMvp.final_tax j < 0 ->
      FullMvp.summary j = FullMvp.TaxRefundDue (Qabs (FullMvp.final_tax j))).
Proof.
  split; [| split].
  - intro i. repeat split; apply max0_nonneg.
  - intro j. reflexivity.
  - intros j H. unfold FullMvp.summary.
    destruct (Qle_bool 0 (FullMvp.final_tax j)) eqn:E; [| reflexivity].
    apply Qle_bool_iff in E. exfalso. lra.
Qed.

Lemma tab3_pipeline_floors_witness :
  FullMvp.summary (FullMvp.mk_input 0 (repeat 0 30) (1000 :: repeat 0 6) 0 0)
  = FullMvp.TaxRefundDue
      (Qabs (FullMvp.final_tax (FullMvp.mk_input 0 (repeat 0 30) (1000 :: repeat 0 6) 0 0))).
Proof.
  apply (proj2 (proj2 tab3_pipeline_floors)). reflexivity.
Defined.

(** The standalone script on a profit of 0 with a wear-and-tear allowance of
    1,000 and nothing else: chargeable income -1,000, final tax -300. *)
Lemma full_mvp_negative_balance :
  let j := FullMvp.mk_input 0 (repeat 0 30) (1000 :: repeat 0 6) 0 0 in
  FullMvp.chargeable_income j == -1000 /\
  FullMvp.final_tax j == -300 /\
  ~ (0 <= FullMvp.chargeable_income j) /\
  ~ (0 <= FullMvp.final_tax j).
Proof.
  split; [reflexivity |]. split; [reflexivity |].
  split; intro H; apply H; reflexivity.
Qed.

(** * The sidebar's sort *)

Lemma insert_by_threshold_perm (x : tier) (l : list tier) :
  Permutation (insert_by_threshold x l) (x :: l).
Proof.
  induction l as [| y l IH]; simpl.
  - apply Permutation_refl.
  - destruct (Py.lt (threshold y) (threshold x)).
    + eapply Permutation_trans; [apply perm_skip, IH | apply perm_swap].
    + apply Permutation_refl.
Qed.

Lemma sorted_by_threshold_perm (l : list tier) :
  Permutation (sorted_by_threshold l) l.
Proof.
  induction l as [| x l IH]; simpl.
  - constructor.
  - eapply Permutation_trans; [apply insert_by_threshold_perm | now constructor].
Qed.

Lemma insert_by_threshold_ascending (x : tier) (l : list tier) :
  weakly_ascending l -> weakly_ascending (insert_by_threshold x l).
Proof.
  unfold weakly_ascending. induction l as [| y l IH]; simpl; intro H.
  - repeat constructor.
  - inversion H as [| ? ? Hl Hy]; subst.
    case_lt (threshold y) (threshold x).
    + constructor; [now apply IH |].
      eapply Permutation_Forall;
        [apply Permutation_sym, insert_by_threshold_perm |].
      constructor; [lra | exact Hy].
    + constructor; [exact H |].
      constructor; [exact Hlt |].
      eapply Forall_impl; [| exact Hy]. simpl. intros a Ha. lra.
Qed.

Lemma sorted_by_threshold_ascending (l : list tier) :
  weakly_ascending (sorted_by_threshold l).
Proof.
  induction l as [| x l IH]; simpl.
  - constructor.
  - now apply insert_by_threshold_ascending.
Qed.

(** A table that is already in order is left as it is. *)
Lemma sorted_by_threshold_fixpoint (l : list tier) :
  weakly_ascending l -> sorted_by_threshold l = l.
Proof.
  unfold weakly_ascending. induction l as [| x l IH]; simpl; intro H.
  - reflexivity.
  - inversion H as [| ? ? Hl Hx]; subst. rewrite (IH Hl).
    destruct l as [| y l']; [reflexivity |]. simpl.
    inversion Hx as [| ? ? Hxy _]; subst.
    apply lt_false_iff in Hxy. now rewrite Hxy.
Qed.

Lemma insert_by_threshold_comm (x y : tier) (l : list tier) :
  ~ threshold x == threshold y ->
  insert_by_threshold x (insert_by_threshold y l)
  = insert_by_threshold y (insert_by_threshold x l).
Proof.
  intro Hne. induction l as [| z l IH]; simpl.
  - case_lt (threshold y) (threshold x); case_lt (threshold x) (threshold y);
      try reflexivity; exfalso; lra.
  - case_lt (threshold z) (threshold y); case_lt (threshold z) (threshold x); simpl;
      rewrite ?Elt, ?Elt0.
    + now rewrite IH.
    + case_lt (threshold x) (threshold y); [reflexivity | exfalso; lra].
    + case_lt (threshold y) (threshold x); [reflexivity | exfalso; lra].
    + case_lt (threshold y) (threshold x); case_lt (threshold x) (threshold y);
        simpl; rewrite ?Elt, ?Elt0; try reflexivity; exfalso; lra.
Qed.

Lemma distinct_thresholds_perm (l l' : list tier) :
  Permutation l l' -> distinct_thresholds l -> distinct_thresholds l'.
Proof.
  unfold distinct_thresholds.
  induction 1 as [| x l l' Hp IH | x y l | l l' l'' _ IH1 _ IH2]; intro H.
  - constructor.
  - inversion H as [| ? ? Hx Hl]; subst. constructor.
    + eapply Permutation_Forall; eassumption.
    + now apply IH.
  - inversion H as [| ? ? Hy Hxl]; subst.
    inversion Hxl as [| ? ? Hx Hl]; subst.
    inversion Hy as [| ? ? Hyx Hyl]; subst.
    constructor; [| constructor; assumption].
    constructor; [| assumption].
    intro E. apply Hyx. now symmetry.
  - auto.
Qed.

(** With pairwise distinct thresholds the order in which the tiers were
    supplied leaves no trace in the sorted table. *)
Lemma sorted_by_threshold_order_free (l l' : list tier) :
  Permutation l l' -> distinct_thresholds l ->
  sorted_by_threshold l = sorted_by_threshold l'.
Proof.
  induction 1 as [| x l l' Hp IH | x y l | l l' l'' Hp1 IH1 Hp2 IH2]; intro H.
  - reflexivity.
  - simpl. inversion H; subst. now rewrite IH.
  - simpl. inversion H as [| ? ? Hy _]; subst.
    inversion Hy as [| ? ? Hyx _]; subst.
    apply insert_by_threshold_comm. intro E. apply Hyx. now symmetry.
  - rewrite IH1 by assumption. apply IH2.
    eapply distinct_thresholds_perm; eassumption.
Qed.

(** C2.  The calculator walks the tiers in the order it is given them and
    does not sort.  The sort is the sidebar loader's: the table it hands to
    the calculator is the supplied tiers in ascending order of threshold.
    Hence, through the loader, the gross tax is the same for every ordering
    of a table whose thresholds are pairwise distinct, and on a table that
    is already ascending the calculator agrees with the calculator run on
    the sorted table. *)
Theorem brackets_sorted_by_loader :
  forall (T : Q) (B B' : list tier),
    load_individual_brackets (Some B) = sorted_by_threshold B /\
    Permutation (load_individual_brackets (Some B)) B /\
    weakly_ascending (load_individual_brackets (Some B)) /\
    (weakly_ascending B ->
     compute_individual_tax_brackets T B
     = compute_individual_tax_brackets T (sorted_by_threshold B)) /\
    (Permutation B B' -> distinct_thresholds B ->
     compute_individual_tax_brackets T (load_individual_brackets (Some B))
     = compute_individual_tax_brackets T (load_individual_brackets (Some B'))).
Proof.
  intros T B B'. simpl.
  split; [reflexivity |].
  split; [apply sorted_by_threshold_perm |].
  split; [apply sorted_by_threshold_ascending |].
  split.
  - intro H. now rewrite sorted_by_threshold_fixpoint.
  - intros Hp Hd. now rewrite (sorted_by_threshold_order_free B B' Hp Hd).
Qed.

Lemma brackets_sorted_by_loader_witness :
  compute_individual_tax_brackets 5
    (load_individual_brackets (Some [mk_tier 10 (1 # 2) (Some 0); mk_tier 0 (1 # 2) (Some 0)]))
  = compute_individual_tax_brackets 5
      (load_individual_brackets (Some [mk_tier 0 (1 # 2) (Some 0); mk_tier 10 (1 # 2) (Some 0)])) /\
  compute_individual_tax_brackets 5 [mk_tier 0 (1 # 2) (Some 0); mk_tier 10 (1 # 2) (Some 0)]
  = compute_individual_tax_brackets 5
      (sorted_by_threshold [mk_tier 0 (1 # 2) (Some 0); mk_tier 10 (1 # 2) (Some 0)]).
Proof.
  split.
  - apply (proj2 (proj2 (proj2 (proj2
             (brackets_sorted_by_loader 5
                [mk_tier 10 (1 # 2) (Some 0); mk_tier 0 (1 # 2) (Some 0)]
                [mk_tier 0 (1 # 2) (Some 0); mk_tier 10 (1 # 2) (Some 0)]))))).
    + apply perm_swap.
    + unfold distinct_thresholds. repeat constructor. simpl. discriminate.
  - apply (proj1 (proj2 (proj2 (proj2
             (brackets_sorted_by_loader 5
                [mk_tier 0 (1 # 2) (Some 0); mk_tier 10 (1 # 2) (Some 0)]
                []))))).
    unfold weakly_ascending. repeat constructor. simpl. discriminate.
Defined.

(** Tiers with the same threshold stay in the order they were supplied in,
    and the walk keeps the last of them: the order of the supplied table
    then shows in the result. *)
Lemma tied_thresholds_keep_supplied_order :
  let B := [mk_tier 0 (10 # 100) (Some 0); mk_tier 0 (20 # 100) (Some 0)] in
  let B' := [mk_tier 0 (20 # 100) (Some 0); mk_tier 0 (10 # 100) (Some 0)] in
  Permutation B B' /\
  compute_individual_tax_brackets 10 (load_individual_brackets (Some B)) == 2 /\
  compute_individual_tax_brackets 10 (load_individual_brackets (Some B')) == 1.
Proof.
  split; [apply perm_swap |]. split; reflexivity.
Qed.

(** The calculator on a table given with its higher tier first: the walk
    stops at once and returns 0, where the sorted table gives 2.50. *)
Lemma calculator_does_not_sort :
  let B := [mk_tier 10 (1 # 2) (Some 0); mk_tier 0 (1 # 2) (Some 0)] in
  compute_individual_tax_brackets 5 B == 0 /\
  compute_individual_tax_brackets 5 (sorted_by_threshold B) == 5 # 2 /\
  ~ compute_individual_tax_brackets 5 B
    == compute_individual_tax_brackets 5 (sorted_by_threshold B).
Proof.
  split; [reflexivity |]. split; [reflexivity |]. discriminate.
Qed.

(** * Floor and rounding of the gross tax *)

Lemma floor_and_round_mono (x y : Q) :
  x <= y -> floor_and_round x <= floor_and_round y.
Proof.
  intro H. unfold floor_and_round. now apply round2_mono, max0_mono.
Qed.

Lemma floor_and_round_nonneg (x : Q) : 0 <= floor_and_round x.
Proof.
  unfold floor_and_round. apply round2_nonneg, max0_nonneg.
Qed.

#[global] Instance max0_comp : Proper (Qeq ==> Qeq) (Py.max 0).
Proof.
  intros x y E. unfold Py.max.
  case_lt 0 x; case_lt 0 y; lra.
Qed.

#[global] Instance floor_and_round_comp : Proper (Qeq ==> Qeq) floor_and_round.
Proof.
  intros x y E. unfold floor_and_round. now rewrite E.
Qed.

Lemma floor_and_round_idem (x : Q) :
  floor_and_round (floor_and_round x) == floor_and_round x.
Proof.
  unfold floor_and_round at 1.
  rewrite (max0_of_nonneg _ (floor_and_round_nonneg x)).
  unfold floor_and_round. now rewrite round2_idem.
Qed.



Lemma compute_individual_tax_brackets_nonpos (T : Q) (B : list tier) :
  T <= 0 -> compute_individual_tax_brackets T B = 0.
Proof.
  intro H. unfold compute_individual_tax_brackets.
  apply Qle_bool_iff in H. now rewrite H.
Qed.

Lemma compute_company_tax_nonneg (T r : Q) :
  0 <= r -> 0 <= compute_company_tax T r.
Proof.
  intro Hr. unfold compute_company_tax.
  destruct (Qle_bool T 0) eqn:E; [lra |].
  apply round2_nonneg. apply Qmult_le_0_compat; [| exact Hr].
  apply Qlt_le_weak, Qnot_le_lt. intro H. apply Qle_bool_iff in H. congruence.
Qed.

Lemma compute_company_tax_mono (r T1 T2 : Q) :
  0 <= r -> T1 <= T2 -> compute_company_tax T1 r <= compute_company_tax T2 r.
Proof.
  intros Hr H12. unfold compute_company_tax at 1.
  destruct (Qle_bool T1 0) eqn:E1; [now apply compute_company_tax_nonneg |].
  assert (H1 : 0 < T1).
  { apply Qnot_le_lt. intro H. apply Qle_bool_iff in H. congruence. }
  unfold compute_company_tax.
  destruct (Qle_bool T2 0) eqn:E2.
  { apply Qle_bool_iff in E2. exfalso. lra. }
  apply round2_mono. now apply Qmult_le_compat_r.
Qed.



(** * The ledger classifier: buckets add up and overlap *)

Lemma series_sum_app (xs ys : list (option Q)) :
  series_sum (xs ++ ys) == series_sum xs + series_sum ys.
Proof.
  induction xs as [| [q |] xs IH]; simpl.
  - lra.
  - fold (series_sum (xs ++ ys)). fold (series_sum xs). lra.
  - fold (series_sum (xs ++ ys)). fold (series_sum xs). exact IH.
Qed.

Lemma ledger_total_app (keywords : list string) (l1 l2 : list (option string * option Q)) :
  ledger_total keywords (l1 ++ l2)
  == ledger_total keywords l1 + ledger_total keywords l2.
Proof.
  unfold ledger_total. rewrite filter_app, map_app. apply series_sum_app.
Qed.

Lemma ledger_total_row (keywords : list string) (row : option string * option Q) :
  ledger_total keywords [row] == row_share keywords row.
Proof.
  unfold ledger_total, row_share. simpl.
  destruct (account_matches keywords (fst row)); simpl; [| reflexivity].
  destruct (snd row); lra.
Qed.

Lemma ledger_total_insert (keywords : list string)
      (l1 l2 : list (option string * option Q)) (row : option string * option Q) :
  ledger_total keywords (l1 ++ row :: l2)
  == ledger_total keywords (l1 ++ l2) + row_share keywords row.
Proof.
  change (row :: l2) with ([row] ++ l2).
  rewrite !ledger_total_app, ledger_total_row. lra.
Qed.

Lemma combine_ledger_columns (rows : list (string * Q)) :
  combine (map (fun r => Some (fst r)) rows) (map (fun r => Some (snd r)) rows)
  = ledger_rows rows.
Proof.
  induction rows as [| r rows IH]; simpl; [reflexivity | now rewrite IH].
Qed.

Lemma auto_map_pl_ledger_frame (rows : list (string * Q)) :
  auto_map_pl (ledger_frame rows)
  = Some (mk_pl_totals
            (0 + ledger_total revenue_keywords (ledger_rows rows))
            (0 + ledger_total cogs_keywords (ledger_rows rows))
            (0 + ledger_total opex_keywords (ledger_rows rows))
            (0 + ledger_total other_income_keywords (ledger_rows rows))
            (0 + ledger_total other_expenses_keywords (ledger_rows rows))).
Proof.
  rewrite <- combine_ledger_columns. reflexivity.
Qed.

Lemma bucket_total_ledger_frame (rows : list (string * Q)) (k : bucket) (t : pl_totals) :
  auto_map_pl (ledger_frame rows) = Some t ->
  bucket_total k t = 0 + ledger_total (bucket_keywords k) (ledger_rows rows).
Proof.
  rewrite auto_map_pl_ledger_frame. intro E. injection E as <-. now destruct k.
Qed.

Lemma ledger_frame_row_share (rows1 rows2 : list (string * Q)) (account : string) (amount : Q)
      (k : bucket) (t t' : pl_totals) :
  auto_map_pl (ledger_frame (rows1 ++ (account, amount) :: rows2)) = Some t ->
  auto_map_pl (ledger_frame (rows1 ++ rows2)) = Some t' ->
  bucket_total k t
  == bucket_total k t' + row_share (bucket_keywords k) (Some account, Some amount).
Proof.
  intros Ht Ht'.
  rewrite (bucket_total_ledger_frame _ k _ Ht), (bucket_total_ledger_frame _ k _ Ht').
  unfold ledger_rows. rewrite !map_app. simpl map.
  rewrite ledger_total_insert. lra.
Qed.

(** C9.  In the account/amount mode the buckets add up and are not mutually
    exclusive: the amount of a row goes into the total of every bucket one
    of whose keywords occurs in its account name, whatever the letter case,
    and into no other.  A row whose account name contains both income and
    expense is counted in the revenue total and in the opex total. *)
Theorem classifier_buckets_overlap :
  (forall (rows1 rows2 : list (string * Q)) (account : string) (amount : Q),
    exists t t' : pl_totals,
      auto_map_pl (ledger_frame (rows1 ++ (account, amount) :: rows2)) = Some t /\
      auto_map_pl (ledger_frame (rows1 ++ rows2)) = Some t' /\
      (forall k : bucket,
          (account_matches (bucket_keywords k) (Some account) = true ->
           bucket_total k t == bucket_total k t' + amount) /\
          (account_matches (bucket_keywords k) (Some account) = false ->
           bucket_total k t == bucket_total k t')) /\
      (contains "income" (lower account) = true ->
       contains "expense" (lower account) = true ->
       pl_revenue t == pl_revenue t' + amount /\
       pl_opex t == pl_opex t' + amount)) /\
  (exists t : pl_totals,
      auto_map_pl (ledger_frame [("Income Tax Expense", 100); ("Sales", 7)]) = Some t /\
      pl_revenue t == 107 /\ pl_cogs t == 0 /\ pl_opex t == 100 /\
      pl_other_income t == 0 /\ pl_other_expenses t == 0).
Proof.
  split.
  - intros rows1 rows2 account amount.
    eexists. eexists.
    split; [apply auto_map_pl_ledger_frame |].
    split; [apply auto_map_pl_ledger_frame |].
    assert (Hshare : forall k : bucket, _ == _ + row_share (bucket_keywords k) _)
      by (intro k; apply (ledger_frame_row_share rows1 rows2 account amount k);
          apply auto_map_pl_ledger_frame).
    assert (Hin : forall k : bucket,
               account_matches (bucket_keywords k) (Some account) = true ->
               row_share (bucket_keywords k) (Some account, Some amount) = amount).
    { intros k Hm. unfold row_share. cbn [fst snd]. now rewrite Hm. }
    assert (Hout : forall k : bucket,
               account_matches (bucket_keywords k) (Some account) = false ->
               row_share (bucket_keywords k) (Some account, Some amount) = 0).
    { intros k Hm. unfold row_share. cbn [fst snd]. now rewrite Hm. }
    split.
    + intro k. split; intro Hm; rewrite (Hshare k).
      * now rewrite (Hin k Hm).
      * rewrite (Hout k Hm). lra.
    + intros Hinc Hexp. split.
      * rewrite (Hshare Revenue), (Hin Revenue); [reflexivity |].
        simpl. now rewrite Hinc.
      * rewrite (Hshare Opex), (Hin Opex); [reflexivity |].
        simpl. now rewrite Hexp.
  - eexists. split; [reflexivity |]. repeat split; reflexivity.
Qed.

Lemma classifier_buckets_overlap_witness :
  exists t t' : pl_totals,
    auto_map_pl (ledger_frame ([("Sales", 7)] ++ ("Income Tax Expense", 100) :: [])) = Some t /\
    auto_map_pl (ledger_frame ([("Sales", 7)] ++ [])) = Some t' /\
    pl_revenue t == pl_revenue t' + 100 /\
    pl_opex t == pl_opex t' + 100 /\
    pl_cogs t == pl_cogs t'.
Proof.
  destruct (proj1 classifier_buckets_overlap [("Sales", 7)] [] "Income Tax Expense" 100)
    as (t & t' & Ht & Ht' & Hk & Hboth).
  exists t, t'.
  split; [exact Ht |]. split; [exact Ht' |].
  destruct (Hboth eq_refl eq_refl) as [Hr Ho].
  split; [exact Hr |]. split; [exact Ho |].
  exact (proj2 (Hk Cogs) eq_refl).
Defined.

(** * The return builder *)

Lemma dict_set_fresh {V : Type} (d : list (string * V)) (k : string) (v : V) :
  dict_get d k = None -> dict_set d k v = d ++ [(k, v)].
Proof.
  induction d as [| [k' v'] d IH]; simpl; intro H.
  - reflexivity.
  - destruct (String.eqb k' k); [discriminate | now rewrite IH].
Qed.

Lemma dict_get_snoc_other {V : Type} (d : list (string * V)) (k k' : string) (v : V) :
  k <> k' -> dict_get (d ++ [(k, v)]) k' = dict_get d k'.
Proof.
  intro Hne. induction d as [| [k0 v0] d IH]; simpl.
  - destruct (String.eqb_spec k k'); [contradiction | reflexivity].
  - destruct (String.eqb k0 k'); [reflexivity | exact IH].
Qed.

Lemma build_return_complete (c : conversions) (payload : list (string * pyval))
      (schema : list (string * string)) :
  forall out : list (string * pyval),
    NoDup (map fst schema) ->
    (forall f, In f (map fst schema) -> dict_get out f = None) ->
    all_coercible c payload schema ->
    exists row,
      build_return c schema payload out = inr (out ++ row) /\
      Forall2 (coerced_field c payload) schema row.
Proof.
  induction schema as [| [field ftype] rest IH]; intros out Hnd Hfresh Hall; simpl.
  - exists []. rewrite app_nil_r. split; [reflexivity | constructor].
  - destruct (Hall field ftype (or_introl eq_refl)) as (val & v & Hval & Hv).
    rewrite Hval, Hv.
    simpl in Hnd. inversion Hnd as [| ? ? Hnotin Hnd']; subst.
    rewrite dict_set_fresh by (apply Hfresh; now left).
    destruct (IH (out ++ [(field, v)]) Hnd') as (row & Hrow & Hfields).
    + intros f Hf. rewrite dict_get_snoc_other.
      * apply Hfresh. now right.
      * intros ->. contradiction.
    + intros f t Hin. apply Hall. now right.
    + exists ((field, v) :: row). split.
      * rewrite Hrow, <- app_assoc. reflexivity.
      * constructor; [| exact Hfields].
        split; [reflexivity |]. exists val. now split.
Qed.

Lemma build_return_missing (c : conversions) (payload : list (string * pyval))
      (pre : list (string * string)) (field ftype : string) (post : list (string * string)) :
  forall out : list (string * pyval),
    all_coercible c payload pre ->
    dict_get payload field = None ->
    build_return c (pre ++ (field, ftype) :: post) payload out = inl (missing_field field).
Proof.
  induction pre as [| [f t] pre IH]; intros out Hall Hmiss; simpl.
  - now rewrite Hmiss.
  - destruct (Hall f t (or_introl eq_refl)) as (val & v & Hval & Hv).
    rewrite Hval, Hv. apply IH; [| exact Hmiss].
    intros f' t' Hin. apply Hall. now right.
Qed.

Lemma build_return_fails (c : conversions) (payload : list (string * pyval))
      (schema : list (string * string)) :
  forall out : list (string * pyval),
    (exists field ftype, In (field, ftype) schema /\ dict_get payload field = None) ->
    exists e, build_return c schema payload out = inl e.
Proof.
  induction schema as [| [f t] rest IH]; intros out (field & ftype & Hin & Hmiss).
  - contradiction.
  - simpl. destruct (dict_get payload f) as [val |] eqn:Hval.
    + destruct (coerce c t val) as [e | v]; [now exists e |].
      apply IH. exists field, ftype. split; [| exact Hmiss].
      destruct Hin as [E | Hin]; [| exact Hin].
      injection E as -> ->. congruence.
    + now exists (missing_field f).
Qed.

Lemma build_return_ext (c : conversions) (payload payload' : list (string * pyval))
      (schema : list (string * string)) :
  (forall k, dict_get payload' k = dict_get payload k) ->
  forall out, build_return c schema payload' out = build_return c schema payload out.
Proof.
  intro Hext. induction schema as [| [f t] rest IH]; intro out; simpl.
  - reflexivity.
  - rewrite Hext. destruct (dict_get payload f) as [val |]; [| reflexivity].
    destruct (coerce c t val); [reflexivity | apply IH].
Qed.

(** A dict holds each key once: the order of insertion does not change
    what a lookup finds. *)
Lemma dict_get_perm {V : Type} (d d' : list (string * V)) :
  Permutation d d' -> NoDup (map fst d) ->
  forall k, dict_get d' k = dict_get d k.
Proof.
  induction 1 as [| [k0 v0] d d' Hp IH | [k1 v1] [k2 v2] d | d d' d'' Hp1 IH1 Hp2 IH2];
    intros Hnd k.
  - reflexivity.
  - simpl. simpl in Hnd. inversion Hnd; subst. now rewrite IH.
  - simpl. simpl in Hnd. inversion Hnd as [| ? ? Hnotin _]; subst.
    destruct (String.eqb_spec k2 k) as [-> | N2];
      destruct (String.eqb_spec k1 k) as [-> | N1]; try reflexivity.
    exfalso. apply Hnotin. now left.
  - rewrite IH2, IH1; [reflexivity | exact Hnd |].
    eapply Permutation_NoDup; [| exact Hnd]. now apply Permutation_map.
Qed.

Lemma registered_schema_fields_distinct (form_code : string) (schema : list (string * string)) :
  dict_get URA_SCHEMAS form_code = Some schema -> NoDup (map fst schema).
Proof.
  unfold URA_SCHEMAS. cbn [dict_get].
  destruct (String.eqb "DT-2001" form_code).
  { intro H. injection H as <-. cbn [map fst].
    repeat (constructor; [simpl; intuition discriminate |]). constructor. }
  destruct (String.eqb "DT-2002" form_code); [| discriminate].
  intro H. injection H as <-. cbn [map fst].
  repeat (constructor; [simpl; intuition discriminate |]). constructor.
Qed.

(** C8.  For a registered form code and a payload that holds every field
    of the schema with a value that converts to the declared type, the
    builder succeeds and the record has the fields of the schema, in the
    order of the schema, with the converted values, whatever the insertion
    order of the payload.  For a payload that misses a field of the schema
    the builder fails; the error names the first missing field in schema
    order when the values of the fields before it convert. *)
Theorem return_builder_schema_order :
  forall (c : conversions) (form_code : string) (schema : list (string * string))
         (payload : list (string * pyval)),
    dict_get URA_SCHEMAS form_code = Some schema ->
    (all_coercible c payload schema ->
     exists row,
       validate_and_build_return c form_code payload = inr row /\
       map fst row = map fst schema /\
       Forall2 (coerced_field c payload) schema row) /\
    (forall payload',
        NoDup (map fst payload) -> Permutation payload payload' ->
        validate_and_build_return c form_code payload'
        = validate_and_build_return c form_code payload) /\
    ((exists field ftype, In (field, ftype) schema /\ dict_get payload field = None) ->
     exists e, validate_and_build_return c form_code payload = inl e) /\
    (forall pre field ftype post,
        schema = pre ++ (field, ftype) :: post ->
        all_coercible c payload pre ->
        dict_get payload field = None ->
        validate_and_build_return c form_code payload = inl (missing_field field)).
Proof.
  intros c form_code schema payload Hschema.
  unfold validate_and_build_return. rewrite Hschema.
  split; [| split; [| split]].
  - intro Hall.
    destruct (build_return_complete c payload schema []
                (registered_schema_fields_distinct _ _ Hschema)
                (fun _ _ => eq_refl) Hall) as (row & Hrow & Hfields).
    exists row. split; [exact Hrow |]. split; [| exact Hfields].
    clear Hrow Hall Hschema.
    induction Hfields as [| d b ds bs [Hname _] _ IH]; simpl.
    + reflexivity.
    + now rewrite Hname, IH.
  - intros payload' Hnd Hperm. apply build_return_ext.
    now apply dict_get_perm.
  - apply build_return_fails.
  - intros pre field ftype post -> Hall Hmiss. now apply build_return_missing.
Qed.

Lemma return_builder_schema_order_witness :
  exists row,
    validate_and_build_return literal_conversions "DT-2001" reversed_dt2001_payload
    = inr row /\
    map fst row
    = [ "TIN"; "Taxpayer Name"; "Period"; "Year"; "Business Income (UGX)";
        "Allowable Deductions (UGX)"; "Capital Allowances (UGX)"; "Exemptions (UGX)";
        "Taxable Income (UGX)"; "Gross Tax (UGX)"; "WHT Credits (UGX)";
        "Foreign Tax Credit (UGX)"; "Rebates (UGX)"; "Net Tax Payable (UGX)" ].
Proof.
  destruct (proj1 (return_builder_schema_order literal_conversions "DT-2001" _
                     reversed_dt2001_payload eq_refl))
    as (row & Hrow & Hnames & _).
  - intros field ftype Hin. simpl in Hin.
    repeat (destruct Hin as [Hin | Hin];
            [injection Hin as <- <-; eexists; eexists; split; reflexivity |]).
    contradiction.
  - exists row. split; [exact Hrow | exact Hnames].
Defined.

(** A DT-2001 payload that stops after the year, with a year that is not a
    numeral: the first missing field is the business income, and the error
    is the one [int] raises on the year. *)
Lemma missing_field_masked_by_conversion :
  let payload :=
    [ ("TIN", PStr "1000123456"); ("Taxpayer Name", PStr "A. Okello");
      ("Period", PStr "FY2024"); ("Year", PStr "abc") ] in
  dict_get payload "Business Income (UGX)" = None /\
  validate_and_build_return literal_conversions "DT-2001" payload
  = inl (InvalidLiteral "int" "abc") /\
  validate_and_build_return literal_conversions "DT-2001" payload
  <> inl (missing_field "Business Income (UGX)").
Proof.
  split; [reflexivity |]. split; [reflexivity |]. discriminate.
Qed.

(** * The worked values in binary64 *)

Set Warnings "-inexact-float".

(** The values the calculators hand to [round(x, 2)] at the worked inputs
    are whole floats, equal to the rational results above. *)
Lemma binary64_worked_values :
  Binary64.unrounded_individual_tax 5000000 Binary64.default_brackets = 384000%float /\
  Binary64.unrounded_individual_tax 4020000 Binary64.default_brackets = 120000%float /\
  Binary64.unrounded_company_tax 100000000 0.30 = 30000000%float /\
  Binary64.apply_credits_and_rebates 1000000 600000 300000 200000 = 0%float /\
  Binary64.unrounded_company_tax (-1000) 0.30 = (-300)%float.
Proof.
  repeat split; reflexivity.
Qed.

(** The calculator on floats, higher tier first and in order. *)
Lemma binary64_unsorted_table :
  Binary64.unrounded_individual_tax 5
    [Binary64.mk_tier 10 0.5 (Some 0%float); Binary64.mk_tier 0 0.5 (Some 0%float)]
  = 0%float /\
  Binary64.unrounded_individual_tax 5
    [Binary64.mk_tier 0 0.5 (Some 0%float); Binary64.mk_tier 10 0.5 (Some 0%float)]
  = 2.5%float.
Proof.
  split; reflexivity.
Qed.

(** * Further properties of the calculators *)


Lemma round_half_even_error (y : Q) :
  - (1 # 2) <= inject_Z (Py.round_half_even y) - y <= 1 # 2.
Proof.
  pose proof (floor_bounds y) as [Hlo Hhi].
  destruct (round_half_even_cases y) as [[H E] | [[H E] | [H E]]]; rewrite E.
  - split; lra.
  - destruct (Z.even (Qfloor y));
      [| rewrite inject_Z_plus; change (inject_Z 1) with 1]; split; lra.
  - rewrite inject_Z_plus. change (inject_Z 1) with 1. split; lra.
Qed.

Lemma hundredths_scale (n : Z) : n # 100 == inject_Z n * (1 # 100).
Proof.
  unfold Qeq, inject_Z, Qmult. simpl. lia.
Qed.

(** [round(x, 2)] is within half a hundredth of [x]. *)
Lemma round2_error (x : Q) : - (1 # 200) <= Py.round2 x - x <= 1 # 200.
Proof.
  unfold Py.round2. rewrite hundredths_scale.
  pose proof (round_half_even_error (x * 100)). split; lra.
Qed.


Lemma ascending_before (pre : list tier) (b : tier) (rest : list tier) :
  ascending (pre ++ b :: rest) ->
  Forall (fun a => threshold a < threshold b) pre.
Proof.
  unfold ascending. induction pre as [| a pre IH]; simpl; intro H.
  - constructor.
  - inversion H as [| ? ? Hs Hall]; subst. constructor.
    + rewrite Forall_forall in Hall. apply Hall.
      apply in_or_app. right. now left.
    + now apply IH.
Qed.




Lemma bracket_loop_after_break (T : Q) (pre : list tier) (b : tier) (rest rest' : list tier) :
  T <= threshold b ->
  forall tax,
    bracket_loop T (pre ++ b :: rest) tax = bracket_loop T (pre ++ b :: rest') tax.
Proof.
  intro Hb. induction pre as [| a pre IH]; intro tax.
  - simpl app. now rewrite !bracket_loop_break.
  - change ((a :: pre) ++ b :: rest) with (a :: (pre ++ b :: rest)).
    change ((a :: pre) ++ b :: rest') with (a :: (pre ++ b :: rest')).
    simpl bracket_loop. destruct (Py.lt (threshold a) T); [| reflexivity].
    assert (E : next_threshold_of (pre ++ b :: rest) = next_threshold_of (pre ++ b :: rest'))
      by (destruct pre; reflexivity).
    rewrite E. apply IH.
Qed.

(** X3.  The walk stops for good at the first tier whose threshold the
    taxable income does not exceed: the tiers after it, whatever their
    thresholds, have no part in the result. *)
Theorem tiers_after_break_ignored :
  forall (T : Q) (pre : list tier) (b : tier) (rest rest' : list tier),
    T <= threshold b ->
    compute_individual_tax_brackets T (pre ++ b :: rest)
    = compute_individual_tax_brackets T (pre ++ b :: rest').
Proof.
  intros T pre b rest rest' Hb. unfold compute_individual_tax_brackets.
  now rewrite (bracket_loop_after_break T pre b rest rest' Hb).
Qed.

Lemma tiers_after_break_ignored_witness :
  compute_individual_tax_brackets 5
    ([mk_tier 0 (10 # 100) (Some 0)] ++ mk_tier 10 (20 # 100) (Some 1)
       :: [mk_tier 3 (50 # 100) (Some 100)])
  = compute_individual_tax_brackets 5
      ([mk_tier 0 (10 # 100) (Some 0)] ++ mk_tier 10 (20 # 100) (Some 1) :: []).
Proof.
  apply tiers_after_break_ignored. discriminate.
Defined.

(** * Further properties of the reduction pipeline *)

(** Closed comparisons of rationals, by evaluation. *)
Ltac closed_q := vm_compute; first [reflexivity | discriminate].

(** Two floors in a row are one floor, when what the second takes off is
    not negative. *)
Lemma max0_max0_sub (x p : Q) : 0 <= p -> Py.max 0 (Py.max 0 x - p) == Py.max 0 (x - p).
Proof.
  intro Hp. unfold Py.max.
  case_lt 0 x; case_lt 0 (x - p); try case_lt 0 (0 - p); lra.
Qed.

(** X5.  With credits and rebates that are not negative, the net tax
    payable never exceeds the gross tax floored at 0, it grows with the
    gross tax and shrinks as any of the three amounts grows. *)
Theorem credits_bounded_and_monotone :
  forall g w f r : Q,
    0 <= w -> 0 <= f -> 0 <= r ->
    apply_credits_and_rebates g w f r <= Py.max 0 g /\
    (forall g', g <= g' ->
        apply_credits_and_rebates g w f r <= apply_credits_and_rebates g' w f r) /\
    (forall w', w <= w' ->
        apply_credits_and_rebates g w' f r <= apply_credits_and_rebates g w f r) /\
    (forall f', f <= f' ->
        apply_credits_and_rebates g w f' r <= apply_credits_and_rebates g w f r) /\
    (forall r', r <= r' ->
        apply_credits_and_rebates g w f r' <= apply_credits_and_rebates g w f r).
Proof.
  intros g w f r Hw Hf Hr. unfold apply_credits_and_rebates.
  split; [| split; [| split; [| split]]].
  - unfold Py.max. case_lt 0 (g - w - f - r); case_lt 0 g; lra.
  - intros g' H. apply max0_mono. lra.
  - intros w' H. apply max0_mono. lra.
  - intros f' H. apply max0_mono. lra.
  - intros r' H. apply max0_mono. lra.
Qed.

Lemma credits_bounded_and_monotone_witness :
  apply_credits_and_rebates 1000000 600000 300000 50000 <= Py.max 0 1000000 /\
  apply_credits_and_rebates 1000000 700000 300000 50000
  <= apply_credits_and_rebates 1000000 600000 300000 50000.
Proof.
  destruct (credits_bounded_and_monotone 1000000 600000 300000 50000)
    as (H1 & _ & H3 & _); [closed_q | closed_q | closed_q |].
  split; [exact H1 | apply H3; closed_q].
Defined.

(** X6.  In tab 3 the floors compose: with capital allowances, exemptions
    and provisional payments that are not negative, the taxable income is
    the adjusted profit less allowables, capital allowances and exemptions,
    floored once at 0, and the net tax after provisional payments is the
    gross tax less credits, rebates and provisional payments, floored once
    at 0. *)
Theorem tab3_floors_compose :
  forall i : tab3_input,
    0 <= capital_allowances i -> 0 <= exemptions i -> 0 <= provisional_tax_paid i ->
    adjusted_taxable_income i
    == Py.max 0 (adjusted_profit i - total_allowables i
                 - capital_allowances i - exemptions i) /\
    net_tax_after_provisional i
    == Py.max 0 (gross_tax i - credits_wht i - credits_foreign i - rebates i
                 - provisional_tax_paid i).
Proof.
  intros i Hc He Hp. split.
  - unfold adjusted_taxable_income, chargeable_income.
    assert (E : Py.max 0 (adjusted_profit i - total_allowables i)
                - capital_allowances i - exemptions i
                == Py.max 0 (adjusted_profit i - total_allowables i)
                   - (capital_allowances i + exemptions i)) by lra.
    rewrite E, max0_max0_sub by lra.
    apply max0_comp. lra.
  - unfold net_tax_after_provisional, net_tax_payable, apply_credits_and_rebates.
    now rewrite max0_max0_sub.
Qed.

Lemma tab3_floors_compose_witness :
  adjusted_taxable_income profitable_company
  == Py.max 0 (adjusted_profit profitable_company - total_allowables profitable_company
               - capital_allowances profitable_company - exemptions profitable_company) /\
  net_tax_after_provisional profitable_company
  == Py.max 0 (gross_tax profitable_company - credits_wht profitable_company
               - credits_foreign profitable_company - rebates profitable_company
               - provisional_tax_paid profitable_company).
Proof.
  apply (tab3_floors_compose profitable_company); closed_q.
Defined.




(** * Further properties of the sidebar's sort *)

Lemma filter_insert_by_threshold (q : Q) (x : tier) (l : list tier) :
  filter (fun b => Qeq_bool (threshold b) q) (insert_by_threshold x l)
  = filter (fun b => Qeq_bool (threshold b) q) (x :: l).
Proof.
  induction l as [| y l IH].
  - reflexivity.
  - simpl insert_by_threshold.
    case_lt (threshold y) (threshold x); [| reflexivity].
    simpl filter in *. rewrite IH.
    destruct (Qeq_bool (threshold x) q) eqn:Ex; [| reflexivity].
    destruct (Qeq_bool (threshold y) q) eqn:Ey; [| reflexivity].
    apply Qeq_bool_iff in Ex, Ey. exfalso. lra.
Qed.

(** X8.  When the brackets JSON parses to a list of tiers whose thresholds
    are numbers (a [NaN] threshold, which no comparison orders, is left
    aside), or when it fails to parse, the table the sidebar hands on is in
    ascending order of threshold (the default table on a failure is),
    loading a loaded table again changes nothing, and the sort is stable:
    the tiers that share a threshold come out in the order they were
    supplied in. *)
Theorem loader_in_order_idempotent_stable :
  (forall parsed : option (list tier),
      weakly_ascending (load_individual_brackets parsed) /\
      load_individual_brackets (Some (load_individual_brackets parsed))
      = load_individual_brackets parsed) /\
  (forall (l : list tier) (q : Q),
      filter (fun b => Qeq_bool (threshold b) q) (sorted_by_threshold l)
      = filter (fun b => Qeq_bool (threshold b) q) l).
Proof.
  split.
  - intro parsed.
    assert (H : weakly_ascending (load_individual_brackets parsed)).
    { destruct parsed as [l |]; simpl.
      - apply sorted_by_threshold_ascending.
      - unfold weakly_ascending, default_brackets.
        repeat constructor; simpl; discriminate. }
    split; [exact H |]. simpl. now apply sorted_by_threshold_fixpoint.
  - intros l q. induction l as [| x l IH].
    + reflexivity.
    + simpl sorted_by_threshold. rewrite filter_insert_by_threshold.
      simpl. now rewrite IH.
Qed.

(** * Further properties of the ledger classifier *)

Lemma dict_get_set {V : Type} (d : list (string * V)) (k k' : string) (v : V) :
  dict_get (dict_set d k v) k' = if String.eqb k k' then Some v else dict_get d k'.
Proof.
  induction d as [| [k0 v0] d IH]; simpl.
  - reflexivity.
  - destruct (String.eqb_spec k0 k) as [-> | N0]; simpl.
    + destruct (String.eqb k k'); reflexivity.
    + rewrite IH.
      destruct (String.eqb_spec k0 k') as [-> | N1]; [| reflexivity].
      destruct (String.eqb_spec k k') as [-> | N2]; [contradiction | reflexivity].
Qed.

Lemma columns_fold_absent (df : dataframe) (key : string) :
  Forall (fun c => column_key (fst c) <> key) df ->
  forall d : list (string * string),
    dict_get (fold_left (fun d c => dict_set d (strip (lower (fst c))) (fst c)) df d) key
    = dict_get d key.
Proof.
  induction 1 as [| c df Hc _ IH]; intro d; simpl.
  - reflexivity.
  - rewrite IH, dict_get_set.
    destruct (String.eqb_spec (strip (lower (fst c))) key) as [E | _]; [| reflexivity].
    contradiction.
Qed.

Lemma columns_by_key_absent (df : dataframe) (key : string) :
  Forall (fun c => column_key (fst c) <> key) df ->
  dict_get (columns_by_key df) key = None.
Proof.
  intro H. unfold columns_by_key. now rewrite columns_fold_absent.
Qed.

(** Of the columns filed under one key, the last one is kept. *)
Lemma columns_by_key_last (df1 df2 : dataframe) (label : string) (col : column) (key : string) :
  column_key label = key ->
  Forall (fun c => column_key (fst c) <> key) df2 ->
  dict_get (columns_by_key (df1 ++ (label, col) :: df2)) key = Some label.
Proof.
  intros Hk H2. unfold columns_by_key.
  rewrite fold_left_app. simpl fold_left.
  rewrite columns_fold_absent by exact H2.
  rewrite dict_get_set. simpl fst. unfold column_key in Hk. rewrite Hk.
  now rewrite String.eqb_refl.
Qed.

Lemma columns_fold_in (df : dataframe) (key label : string) :
  forall d : list (string * string),
    dict_get (fold_left (fun d c => dict_set d (strip (lower (fst c))) (fst c)) df d) key
    = Some label ->
    dict_get d key = Some label \/ In label (map fst df).
Proof.
  induction df as [| c df IH]; intros d H; simpl in *.
  - now left.
  - destruct (IH _ H) as [H' | H']; [| right; now right].
    rewrite dict_get_set in H'.
    destruct (String.eqb (strip (lower (fst c))) key); [| now left].
    injection H' as <-. right. now left.
Qed.

Lemma dict_get_first {V : Type} (d : list (string * V)) (k : string) :
  In k (map fst d) -> exists v, dict_get d k = Some v /\ In (k, v) d.
Proof.
  induction d as [| [k0 v0] d IH]; simpl; intro H; [contradiction |].
  destruct (String.eqb_spec k0 k) as [-> | N].
  - exists v0. split; [reflexivity | now left].
  - destruct H as [E | H]; [contradiction |].
    destruct (IH H) as (v & Hv & Hin). exists v. split; [exact Hv | now right].
Qed.

Lemma dict_get_nodup {V : Type} (d : list (string * V)) (k : string) (v : V) :
  NoDup (map fst d) -> In (k, v) d -> dict_get d k = Some v.
Proof.
  induction d as [| [k0 v0] d IH]; simpl; intros Hnd Hin; [contradiction |].
  inversion Hnd as [| ? ? Hnotin Hnd']; subst.
  destruct Hin as [E | Hin].
  - injection E as -> ->. now rewrite String.eqb_refl.
  - destruct (String.eqb_spec k0 k) as [-> | N]; [| now apply IH].
    exfalso. apply Hnotin. apply in_map_iff. now exists (k, v).
Qed.

Lemma column_total_numeric (df : dataframe) (key : string) :
  all_numeric df ->
  exists q, column_total df (columns_by_key df) key = Some q.
Proof.
  intro Hnum. unfold column_total.
  destruct (dict_get (columns_by_key df) key) as [label |] eqn:E; [| now exists 0].
  unfold columns_by_key in E.
  destruct (columns_fold_in _ _ _ _ E) as [H | H]; [discriminate |].
  destruct (dict_get_first df label H) as (col & Hget & Hin).
  unfold getitem. rewrite Hget.
  unfold all_numeric in Hnum. rewrite Forall_forall in Hnum.
  destruct (Hnum _ Hin) as [ys Hys]. simpl in Hys. subst col.
  now exists (series_sum ys).
Qed.

Lemma column_total_last (df1 df2 : dataframe) (label : string) (xs : list (option Q))
      (key : string) :
  NoDup (map fst (df1 ++ (label, Numeric xs) :: df2)) ->
  column_key label = key ->
  Forall (fun c => column_key (fst c) <> key) df2 ->
  column_total (df1 ++ (label, Numeric xs) :: df2)
    (columns_by_key (df1 ++ (label, Numeric xs) :: df2)) key
  = Some (series_sum xs).
Proof.
  intros Hnd Hk H2. unfold column_total.
  rewrite (columns_by_key_last df1 df2 label (Numeric xs) key Hk H2).
  unfold getitem. rewrite (dict_get_nodup _ label (Numeric xs) Hnd); [reflexivity |].
  apply in_or_app. right. now left.
Qed.

(** X9.  A frame whose column labels are strings of ASCII characters, none
    of them, lower-cased and stripped, one the classifier looks for, the
    empty frame included, gives five totals of 0; nothing is raised,
    whatever the columns hold. *)
Theorem unrecognised_frame_all_zero :
  forall df : dataframe,
    Forall (fun c => is_ascii (fst c) = true) df ->
    Forall (fun c => ~ In (column_key (fst c)) recognised_keys) df ->
    auto_map_pl df = Some (mk_pl_totals 0 0 0 0 0).
Proof.
  intros df _ H.
  assert (Hkey : forall key, In key recognised_keys ->
                             dict_get (columns_by_key df) key = None).
  { intros key Hin. apply columns_by_key_absent.
    eapply Forall_impl; [| exact H]. simpl. intros c Hc E. apply Hc. now rewrite E. }
  unfold auto_map_pl, column_total.
  rewrite !Hkey by (simpl; tauto).
  reflexivity.
Qed.

Lemma unrecognised_frame_all_zero_witness :
  auto_map_pl [ ("Date", Text [Some "2024-07-01"; None]);
                ("Memo", Text [Some "opening"; Some "rent"]);
                ("Balance", Numeric [Some 10; Some 20]) ]
  = Some (mk_pl_totals 0 0 0 0 0).
Proof.
  apply unrecognised_frame_all_zero.
  - repeat constructor.
  - repeat constructor; vm_compute; intuition discriminate.
Defined.

(** X10.  In a frame of numeric columns with distinct labels, strings of
    ASCII characters, and no account column, the total of a bucket is the
    sum, missing values skipped, of the last column whose label,
    lower-cased and stripped of white space at its ends, is the key of the
    bucket; earlier columns filed under the same key are ignored. *)
Theorem explicit_column_total :
  forall (df1 df2 : dataframe) (label : string) (xs : list (option Q)) (k : bucket),
    Forall (fun c => is_ascii (fst c) = true) (df1 ++ (label, Numeric xs) :: df2) ->
    NoDup (map fst (df1 ++ (label, Numeric xs) :: df2)) ->
    all_numeric (df1 ++ (label, Numeric xs) :: df2) ->
    Forall (fun c => column_key (fst c) <> "account") (df1 ++ (label, Numeric xs) :: df2) ->
    column_key label = bucket_column k ->
    Forall (fun c => column_key (fst c) <> bucket_column k) df2 ->
    exists t : pl_totals,
      auto_map_pl (df1 ++ (label, Numeric xs) :: df2) = Some t /\
      bucket_total k t = series_sum xs.
Proof.
  intros df1 df2 label xs k _ Hnd Hnum Hacc Hk H2.
  pose proof (column_total_last df1 df2 label xs (bucket_column k) Hnd Hk H2) as Hlast.
  destruct (column_total_numeric _ "revenue" Hnum) as [q1 E1].
  destruct (column_total_numeric _ "cogs" Hnum) as [q2 E2].
  destruct (column_total_numeric _ "operating_expenses" Hnum) as [q3 E3].
  destruct (column_total_numeric _ "other_income" Hnum) as [q4 E4].
  destruct (column_total_numeric _ "other_expenses" Hnum) as [q5 E5].
  exists (mk_pl_totals q1 q2 q3 q4 q5). split.
  - unfold auto_map_pl. rewrite E1, E2, E3, E4, E5.
    now rewrite (columns_by_key_absent _ "account" Hacc).
  - destruct k; simpl in *; congruence.
Qed.

Lemma explicit_column_total_witness :
  exists t : pl_totals,
    auto_map_pl ([("revenue", Numeric [Some 1; Some 2; Some 3])]
                 ++ ("  REVENUE ", Numeric [Some 300; None; Some 50])
                 :: [("Cogs", Numeric [Some 7; Some 8; None])]) = Some t /\
    bucket_total Revenue t = series_sum [Some 300; None; Some 50].
Proof.
  apply (explicit_column_total
           [("revenue", Numeric [Some 1; Some 2; Some 3])]
           [("Cogs", Numeric [Some 7; Some 8; None])]
           "  REVENUE " [Some 300; None; Some 50] Revenue).
  - repeat constructor.
  - repeat constructor; simpl; intuition discriminate.
  - repeat constructor; simpl; eexists; reflexivity.
  - repeat constructor; vm_compute; discriminate.
  - reflexivity.
  - repeat constructor; vm_compute; discriminate.
Defined.

Lemma contains_prefix (needle hay : string) :
  String.prefix needle hay = true -> contains needle hay = true.
Proof.
  intro H. destruct hay; cbn [contains]; now rewrite H.
Qed.

(** A word found in a text is found without its first letter too. *)
Lemma contains_drop_head (c : ascii) (needle hay : string) :
  contains (String c needle) hay = true -> contains needle hay = true.
Proof.
  induction hay as [| c' hay IH]; cbn [contains]; intro H.
  - discriminate.
  - apply orb_true_iff in H. destruct H as [H | H].
    + cbn [String.prefix] in H.
      destruct (Ascii.ascii_dec c c') as [_ | _]; [| discriminate].
      apply orb_true_iff. right. now apply contains_prefix.
    + apply orb_true_iff. right. now apply IH.
Qed.

Lemma other_income_is_income (s : string) :
  contains "other income" s = true -> contains "income" s = true.
Proof.
  intro H. now do 6 apply contains_drop_head in H.
Qed.

Lemma other_expense_is_expense (s : string) :
  contains "other expense" s = true -> contains "expense" s = true.
Proof.
  intro H. now do 6 apply contains_drop_head in H.
Qed.

Lemma existsb_head {A : Type} (f : A -> bool) (x : A) (l : list A) :
  f x = true -> existsb f (x :: l) = true.
Proof.
  intro H. simpl. now rewrite H.
Qed.

Lemma auto_map_pl_ledger_frame_some (rows : list (string * Q)) :
  exists t : pl_totals, auto_map_pl (ledger_frame rows) = Some t.
Proof.
  eexists. apply auto_map_pl_ledger_frame.
Qed.

(** X11.  A ledger row whose account name contains "other income", in any
    letter case, is counted twice: its amount goes into the other-income
    total and into the revenue total.  In the same way a row whose account
    name contains "other expense" goes into the other-expenses total and
    into the opex total. *)
Theorem other_rows_counted_twice :
  forall (rows1 rows2 : list (string * Q)) (account : string) (amount : Q),
  exists t t' : pl_totals,
    auto_map_pl (ledger_frame (rows1 ++ (account, amount) :: rows2)) = Some t /\
    auto_map_pl (ledger_frame (rows1 ++ rows2)) = Some t' /\
    (contains "other income" (lower account) = true ->
     pl_other_income t == pl_other_income t' + amount /\
     pl_revenue t == pl_revenue t' + amount) /\
    (contains "other expense" (lower account) = true ->
     pl_other_expenses t == pl_other_expenses t' + amount /\
     pl_opex t == pl_opex t' + amount).
Proof.
  intros rows1 rows2 account amount.
  destruct (auto_map_pl_ledger_frame_some (rows1 ++ (account, amount) :: rows2)) as [t Ht].
  destruct (auto_map_pl_ledger_frame_some (rows1 ++ rows2)) as [t' Ht'].
  exists t, t'. split; [exact Ht |]. split; [exact Ht' |].
  assert (Hshare : forall k : bucket,
             account_matches (bucket_keywords k) (Some account) = true ->
             bucket_total k t == bucket_total k t' + amount).
  { intros k Hm.
    rewrite (ledger_frame_row_share rows1 rows2 account amount k t t' Ht Ht').
    unfold row_share. cbn [fst snd]. rewrite Hm. reflexivity. }
  split; intro H.
  - split.
    + apply (Hshare OtherIncome). now apply existsb_head.
    + apply (Hshare Revenue). apply existsb_head. now apply other_income_is_income.
  - split.
    + apply (Hshare OtherExpenses). now apply existsb_head.
    + apply (Hshare Opex). apply existsb_head. now apply other_expense_is_expense.
Qed.

Lemma other_rows_counted_twice_witness :
  exists t t' : pl_totals,
    auto_map_pl (ledger_frame ([("Sales", 7)] ++ ("Other Income: interest", 100) :: []))
    = Some t /\
    auto_map_pl (ledger_frame ([("Sales", 7)] ++ [])) = Some t' /\
    pl_other_income t == pl_other_income t' + 100 /\
    pl_revenue t == pl_revenue t' + 100.
Proof.
  destruct (other_rows_counted_twice [("Sales", 7)] [] "Other Income: interest" 100)
    as (t & t' & Ht & Ht' & Hinc & _).
  exists t, t'. split; [exact Ht |]. split; [exact Ht' |].
  apply Hinc. reflexivity.
Defined.

Lemma combine_fst_snd {A B : Type} (rows : list (A * B)) :
  combine (map fst rows) (map snd rows) = rows.
Proof.
  induction rows as [| [a b] rows IH]; simpl; [reflexivity | now rewrite IH].
Qed.

Lemma auto_map_pl_with_gaps (rows : list (option string * option Q)) :
  auto_map_pl (ledger_frame_with_gaps rows)
  = Some (mk_pl_totals
            (0 + ledger_total revenue_keywords rows)
            (0 + ledger_total cogs_keywords rows)
            (0 + ledger_total opex_keywords rows)
            (0 + ledger_total other_income_keywords rows)
            (0 + ledger_total other_expenses_keywords rows)).
Proof.
  rewrite <- (combine_fst_snd rows) at 2 3 4 5 6. reflexivity.
Qed.

Lemma bucket_total_with_gaps (rows : list (option string * option Q)) (k : bucket)
      (t : pl_totals) :
  auto_map_pl (ledger_frame_with_gaps rows) = Some t ->
  bucket_total k t = 0 + ledger_total (bucket_keywords k) rows.
Proof.
  rewrite auto_map_pl_with_gaps. intro E. injection E as <-. now destruct k.
Qed.

(** X13.  A ledger row with no account name, or with no amount, adds
    nothing to any total: the ledger with the row and the ledger without
    it have the same five totals. *)
Theorem rows_with_gaps_add_nothing :
  forall (rows1 rows2 : list (option string * option Q)) (row : option string * option Q),
    fst row = None \/ snd row = None ->
    exists t t' : pl_totals,
      auto_map_pl (ledger_frame_with_gaps (rows1 ++ row :: rows2)) = Some t /\
      auto_map_pl (ledger_frame_with_gaps (rows1 ++ rows2)) = Some t' /\
      forall k : bucket, bucket_total k t == bucket_total k t'.
Proof.
  intros rows1 rows2 [account amount] Hgap. simpl in Hgap.
  eexists. eexists.
  split; [apply auto_map_pl_with_gaps |].
  split; [apply auto_map_pl_with_gaps |].
  intro k.
  rewrite (bucket_total_with_gaps _ k _ (auto_map_pl_with_gaps _)).
  rewrite (bucket_total_with_gaps _ k _ (auto_map_pl_with_gaps _)).
  rewrite ledger_total_insert.
  assert (E : row_share (bucket_keywords k) (account, amount) = 0).
  { unfold row_share. cbn [fst snd].
    destruct Hgap as [-> | ->]; [reflexivity |].
    now destruct (account_matches (bucket_keywords k) account). }
  rewrite E. lra.
Qed.

Lemma rows_with_gaps_add_nothing_witness :
  exists t t' : pl_totals,
    auto_map_pl (ledger_frame_with_gaps
                   ([(Some "Sales", Some 7)] ++ (Some "Income", None) :: [(None, Some 5)]))
    = Some t /\
    auto_map_pl (ledger_frame_with_gaps ([(Some "Sales", Some 7)] ++ [(None, Some 5)]))
    = Some t' /\
    forall k : bucket, bucket_total k t == bucket_total k t'.
Proof.
  apply (rows_with_gaps_add_nothing [(Some "Sales", Some 7)] [(None, Some 5)]
           (Some "Income", None)).
  right. reflexivity.
Defined.

(** * Further properties of the return builder *)

Lemma registered_form_codes (form_code : string) :
  dict_get URA_SCHEMAS form_code = None <->
  form_code <> "DT-2001" /\ form_code <> "DT-2002".
Proof.
  unfold URA_SCHEMAS. cbn [dict_get].
  destruct (String.eqb_spec "DT-2001" form_code) as [<- | N1].
  { split; [discriminate | intros [H _]; now contradiction H]. }
  destruct (String.eqb_spec "DT-2002" form_code) as [<- | N2].
  { split; [discriminate | intros [_ H]; now contradiction H]. }
  split; [| reflexivity]. intros _. split; congruence.
Qed.

(** X14.  A form code other than DT-2001 and DT-2002, spelled exactly so,
    makes the builder fail with the key error of the schema lookup before
    the payload is looked at. *)
Theorem unknown_form_code_key_error :
  forall (c : conversions) (form_code : string) (payload : list (string * pyval)),
    form_code <> "DT-2001" -> form_code <> "DT-2002" ->
    validate_and_build_return c form_code payload = inl (KeyError form_code).
Proof.
  intros c form_code payload H1 H2. unfold validate_and_build_return.
  now rewrite (proj2 (registered_form_codes form_code) (conj H1 H2)).
Qed.

Lemma unknown_form_code_key_error_witness :
  validate_and_build_return literal_conversions "dt-2001" reversed_dt2001_payload
  = inl (KeyError "dt-2001").
Proof.
  apply unknown_form_code_key_error; discriminate.
Defined.

Lemma build_return_foreign_key (c : conversions) (payload : list (string * pyval))
      (key : string) (val : pyval) (schema : list (string * string)) :
  ~ In key (map fst schema) ->
  forall out,
    build_return c schema (dict_set payload key val) out
    = build_return c schema payload out.
Proof.
  induction schema as [| [f t] rest IH]; intros Hkey out; simpl.
  - reflexivity.
  - rewrite dict_get_set.
    destruct (String.eqb_spec key f) as [-> | N].
    { exfalso. apply Hkey. now left. }
    destruct (dict_get payload f) as [v |]; [| reflexivity].
    destruct (coerce c t v); [reflexivity |].
    apply IH. intro H. apply Hkey. now right.
Qed.

(** X15.  An entry of the payload whose key is not a field of the form has
    no effect: setting it, to any value, leaves the result of the builder
    as it was. *)
Theorem foreign_payload_key_ignored :
  forall (c : conversions) (form_code : string) (schema : list (string * string))
         (payload : list (string * pyval)) (key : string) (val : pyval),
    dict_get URA_SCHEMAS form_code = Some schema ->
    ~ In key (map fst schema) ->
    validate_and_build_return c form_code (dict_set payload key val)
    = validate_and_build_return c form_code payload.
Proof.
  intros c form_code schema payload key val Hschema Hkey.
  unfold validate_and_build_return. rewrite Hschema.
  now apply build_return_foreign_key.
Qed.

Lemma foreign_payload_key_ignored_witness :
  validate_and_build_return literal_conversions "DT-2001"
    (dict_set reversed_dt2001_payload "Prepared By" (PStr "clerk"))
  = validate_and_build_return literal_conversions "DT-2001" reversed_dt2001_payload.
Proof.
  apply (foreign_payload_key_ignored literal_conversions "DT-2001" _ _ _ _ eq_refl).
  simpl. intuition discriminate.
Defined.

Lemma build_return_inr_coercible (c : conversions) (payload : list (string * pyval))
      (schema : list (string * string)) :
  forall out row,
    build_return c schema payload out = inr row ->
    all_coercible c payload schema.
Proof.
  induction schema as [| [f t] rest IH]; intros out row H field ftype Hin.
  - contradiction.
  - simpl in H.
    destruct (dict_get payload f) as [val |] eqn:Hval; [| discriminate].
    destruct (coerce c t val) as [e | v] eqn:Hv; [discriminate |].
    destruct Hin as [E | Hin].
    + injection E as <- <-. now exists val, v.
    + exact (IH _ _ H field ftype Hin).
Qed.

Lemma build_return_first_failure (c : conversions) (payload : list (string * pyval))
      (pre : list (string * string)) (field ftype : string) (post : list (string * string))
      (val : pyval) (e : exn) :
  forall out : list (string * pyval),
    all_coercible c payload pre ->
    dict_get payload field = Some val ->
    coerce c ftype val = inl e ->
    build_return c (pre ++ (field, ftype) :: post) payload out = inl e.
Proof.
  induction pre as [| [f t] pre IH]; intros out Hall Hval He; simpl.
  - now rewrite Hval, He.
  - destruct (Hall f t (or_introl eq_refl)) as (val' & v & Hval' & Hv).
    rewrite Hval', Hv. apply IH; [| exact Hval | exact He].
    intros f' t' Hin. apply Hall. now right.
Qed.

(** X16.  For a registered form the builder succeeds exactly when the
    payload holds every field of the schema with a value that converts to
    its declared type; and when the first field, in schema order, that
    fails does so by conversion, the error of the builder is the error of
    that conversion. *)
Theorem builder_succeeds_iff_coercible :
  forall (c : conversions) (form_code : string) (schema : list (string * string))
         (payload : list (string * pyval)),
    dict_get URA_SCHEMAS form_code = Some schema ->
    ((exists row, validate_and_build_return c form_code payload = inr row)
     <-> all_coercible c payload schema) /\
    (forall pre field ftype post val e,
        schema = pre ++ (field, ftype) :: post ->
        all_coercible c payload pre ->
        dict_get payload field = Some val ->
        coerce c ftype val = inl e ->
        validate_and_build_return c form_code payload = inl e).
Proof.
  intros c form_code schema payload Hschema.
  unfold validate_and_build_return. rewrite Hschema. split.
  - split.
    + intros [row H]. exact (build_return_inr_coercible _ _ _ _ _ H).
    + intro Hall.
      destruct (build_return_complete c payload schema []
                  (registered_schema_fields_distinct _ _ Hschema)
                  (fun _ _ => eq_refl) Hall) as (row & Hrow & _).
      now exists row.
  - intros pre field ftype post val e -> Hall Hval He.
    now apply (build_return_first_failure c payload pre field ftype post val e).
Qed.

Lemma builder_succeeds_iff_coercible_witness :
  validate_and_build_return literal_conversions "DT-2001"
    [ ("TIN", PStr "1000123456"); ("Taxpayer Name", PStr "A. Okello");
      ("Period", PStr "FY2024"); ("Year", PInt 2024);
      ("Business Income (UGX)", PStr "n/a") ]
  = inl (InvalidLiteral "float" "n/a").
Proof.
  apply (proj2 (builder_succeeds_iff_coercible literal_conversions "DT-2001"
                  (schema_fields "DT-2001")
                  [ ("TIN", PStr "1000123456"); ("Taxpayer Name", PStr "A. Okello");
                    ("Period", PStr "FY2024"); ("Year", PInt 2024);
                    ("Business Income (UGX)", PStr "n/a") ] eq_refl)
           [ ("TIN", "str"); ("Taxpayer Name", "str"); ("Period", "str"); ("Year", "int") ]
           "Business Income (UGX)" "float" (skipn 5 (schema_fields "DT-2001"))
           (PStr "n/a")).
  - reflexivity.
  - intros field ftype Hin. simpl in Hin.
    repeat (destruct Hin as [Hin | Hin];
            [injection Hin as <- <-; eexists; eexists; split; reflexivity |]).
    contradiction.
  - reflexivity.
  - reflexivity.
Defined.

(** A row whose values already have the declared types is rebuilt as it
    is. *)
Lemma build_return_typed_row (c : conversions) (whole : list (string * pyval)) :
  forall (schema : list (string * string)) (row out : list (string * pyval)),
    Forall2 (fun d b => fst b = fst d /\
                        dict_get whole (fst d) = Some (snd b) /\
                        coerce c (snd d) (snd b) = inr (snd b)) schema row ->
    NoDup (map fst schema) ->
    (forall f, In f (map fst schema) -> dict_get out f = None) ->
    build_return c schema whole out = inr (out ++ row).
Proof.
  intros schema row out H. revert out.
  induction H as [| [f t] [f' v] schema row (Hf & Hget & Hco) _ IH];
    intros out Hnd Hfresh; simpl in *.
  - now rewrite app_nil_r.
  - subst f'. rewrite Hget, Hco.
    inversion Hnd as [| ? ? Hnotin Hnd']; subst.
    rewrite dict_set_fresh by (apply Hfresh; now left).
    rewrite IH.
    + now rewrite <- app_assoc.
    + exact Hnd'.
    + intros g Hg. rewrite dict_get_snoc_other.
      * apply Hfresh. now right.
      * intros ->. contradiction.
Qed.

Lemma coerced_fields_names (c : conversions) (payload : list (string * pyval))
      (schema : list (string * string)) (row : list (string * pyval)) :
  Forall2 (coerced_field c payload) schema row -> map fst row = map fst schema.
Proof.
  induction 1 as [| d b ds bs [Hname _] _ IH]; simpl.
  - reflexivity.
  - now rewrite Hname, IH.
Qed.

Lemma Forall2_impl_in {A B : Type} (R R' : A -> B -> Prop) (l : list A) (l' : list B) :
  (forall x y, In x l -> In y l' -> R x y -> R' x y) ->
  Forall2 R l l' -> Forall2 R' l l'.
Proof.
  intros Himp H. induction H as [| x y l l' Hxy _ IH].
  - constructor.
  - constructor.
    + apply Himp; [now left | now left | exact Hxy].
    + apply IH. intros a b Ha Hb. apply Himp; now right.
Qed.

(** X17.  With conversions that leave a converted value as it is, the
    builder is idempotent: the record it returns for a payload, given back
    to it as a payload, is returned unchanged. *)
Theorem builder_idempotent :
  forall (c : conversions) (form_code : string) (payload row : list (string * pyval)),
    conversions_stable c ->
    validate_and_build_return c form_code payload = inr row ->
    validate_and_build_return c form_code row = inr row.
Proof.
  intros c form_code payload row Hstable H.
  unfold validate_and_build_return in *.
  destruct (dict_get URA_SCHEMAS form_code) as [schema |] eqn:Hschema; [| discriminate].
  pose proof (registered_schema_fields_distinct _ _ Hschema) as Hnd.
  pose proof (build_return_inr_coercible _ _ _ _ _ H) as Hall.
  destruct (build_return_complete c payload schema [] Hnd (fun _ _ => eq_refl) Hall)
    as (row0 & Hrow0 & Hfields).
  rewrite H in Hrow0. injection Hrow0 as ->. simpl in Hfields.
  pose proof (coerced_fields_names _ _ _ _ Hfields) as Hnames.
  assert (Hnd' : NoDup (map fst row0)) by (now rewrite Hnames).
  apply (build_return_typed_row c row0 schema row0 []); [| exact Hnd | reflexivity].
  apply (Forall2_impl_in (coerced_field c payload)); [| exact Hfields].
  intros [f t] [f' v] _ Hin (Hname & val & _ & Hco). simpl in *. subst f'.
  split; [reflexivity |]. split.
  - now apply dict_get_nodup.
  - exact (Hstable t val v Hco).
Qed.

Lemma literal_conversions_stable : conversions_stable literal_conversions.
Proof.
  intros ftype val v. unfold coerce, literal_conversions. simpl.
  destruct (String.eqb ftype "int"); [| destruct (String.eqb ftype "float")];
    destruct val as [z | q | s]; simpl;
    try (intro H; injection H as <-; reflexivity).
  - destruct (parse_int_literal (strip s)); [| discriminate].
    intro H. injection H as <-. reflexivity.
  - destruct (parse_float_literal (strip s)); [| discriminate].
    intro H. injection H as <-. reflexivity.
Qed.

Lemma builder_idempotent_witness :
  match validate_and_build_return literal_conversions "DT-2001" reversed_dt2001_payload with
  | inr row => validate_and_build_return literal_conversions "DT-2001" row = inr row
  | inl _ => False
  end.
Proof.
  destruct (validate_and_build_return literal_conversions "DT-2001" reversed_dt2001_payload)
    as [e | row] eqn:E.
  - vm_compute in E. discriminate E.
  - exact (builder_idempotent literal_conversions "DT-2001" reversed_dt2001_payload row
             literal_conversions_stable E).
Defined.

Lemma validate_typed_payload (c : conversions) (form_code : string)
      (schema : list (string * string)) (payload : list (string * pyval)) :
  dict_get URA_SCHEMAS form_code = Some schema ->
  Forall2 (fun d b => fst b = fst d /\ coerce c (snd d) (snd b) = inr (snd b)) schema payload ->
  validate_and_build_return c form_code payload = inr payload.
Proof.
  intros Hschema H. unfold validate_and_build_return. rewrite Hschema.
  pose proof (registered_schema_fields_distinct _ _ Hschema) as Hnd.
  assert (Hnames : map fst payload = map fst schema).
  { clear -H. induction H as [| d b ds bs [Hn _] _ IH]; simpl; [reflexivity |].
    now rewrite Hn, IH. }
  apply (build_return_typed_row c payload schema payload []); [| exact Hnd | reflexivity].
  apply (Forall2_impl_in (fun d b => fst b = fst d /\ coerce c (snd d) (snd b) = inr (snd b)));
    [| exact H].
  intros [f t] [f' v] _ Hin [Hn Hco]. simpl in *. subst f'.
  split; [reflexivity |]. split; [| exact Hco].
  apply dict_get_nodup; [now rewrite Hnames | exact Hin].
Qed.

(** X18.  A payload that lists the fields of a registered form in the
    order of the schema, each with a value already of the declared type (a
    string, an int or a float), passes the builder and comes back as it
    is, field for field. *)
Theorem typed_payload_returned_as_is :
  forall (c : conversions) (form_code : string) (schema : list (string * string))
         (payload : list (string * pyval)),
    conversions_keep_typed c ->
    dict_get URA_SCHEMAS form_code = Some schema ->
    Forall2 (fun d b => fst b = fst d /\ of_declared_type (snd d) (snd b) = true)
            schema payload ->
    validate_and_build_return c form_code payload = inr payload.
Proof.
  intros c form_code schema payload (Hint & Hfloat & Hstr) Hschema H.
  apply (validate_typed_payload c form_code schema payload Hschema).
  eapply Forall2_impl_in; [| exact H].
  intros [f t] [f' v] _ _ [Hn Ht]. simpl in *. split; [exact Hn |].
  unfold coerce, of_declared_type in *.
  destruct (String.eqb t "int").
  - destruct v; try discriminate. apply Hint.
  - destruct (String.eqb t "float").
    + destruct v; try discriminate. apply Hfloat.
    + destruct v; try discriminate. apply Hstr.
Qed.

Lemma literal_conversions_keep_typed : conversions_keep_typed literal_conversions.
Proof.
  repeat split.
Qed.

Lemma typed_payload_returned_as_is_witness :
  validate_and_build_return literal_conversions "DT-2001" typed_dt2001_payload
  = inr typed_dt2001_payload.
Proof.
  apply (typed_payload_returned_as_is literal_conversions "DT-2001"
           (schema_fields "DT-2001") typed_dt2001_payload
           literal_conversions_keep_typed eq_refl).
  repeat (constructor; [split; reflexivity |]). constructor.
Defined.

(** * The add-backs dict of the second script *)




(** * Binary64 arithmetic on rationals

    ** Powers of two *)

Lemma pow2_pos (e : Z) : 0 < F64.pow2 e.
Proof. apply Qpower_0_lt. reflexivity. Qed.

Lemma pow2_plus (a b : Z) : F64.pow2 (a + b) == F64.pow2 a * F64.pow2 b.
Proof. apply Qpower_plus. discriminate. Qed.

Lemma pow2_lt (a b : Z) : (a < b)%Z -> F64.pow2 a < F64.pow2 b.
Proof. intro H. apply Qpower_lt_compat_l; [exact H | reflexivity]. Qed.

Lemma pow2_le (a b : Z) : (a <= b)%Z -> F64.pow2 a <= F64.pow2 b.
Proof. intro H. apply Qpower_le_compat_l; [exact H | discriminate]. Qed.

Lemma pow2_lt_inv (a b : Z) : F64.pow2 a < F64.pow2 b -> (a < b)%Z.
Proof. intro H. apply (Qpower_lt_compat_l_inv 2); [exact H | reflexivity]. Qed.

Lemma pow2_Z (k : Z) : (0 <= k)%Z -> F64.pow2 k == inject_Z (2 ^ k).
Proof. intro H. unfold F64.pow2. now rewrite Zpower_Qpower. Qed.

(** [2^e] is a whole multiple of [2^s] for [s <= e]. *)
Lemma pow2_multiple (s e : Z) :
  (s <= e)%Z -> F64.pow2 e == inject_Z (2 ^ (e - s)) * F64.pow2 s.
Proof.
  intro H. rewrite <- pow2_Z by lia. rewrite <- pow2_plus.
  replace (e - s + s)%Z with e by lia. reflexivity.
Qed.

(** ** The binary logarithm *)

Lemma ilog2_spec (x : Q) :
  0 < x -> F64.pow2 (F64.ilog2 x) <= x < F64.pow2 (F64.ilog2 x + 1).
Proof.
  intro Hx. destruct x as [n d].
  assert (Hn : (0 < n)%Z).
  { unfold Qlt in Hx. simpl in Hx. lia. }
  pose proof (Z.log2_spec n Hn) as [Hn1 Hn2].
  pose proof (Z.log2_spec (Zpos d) (Pos2Z.is_pos d)) as [Hd1 Hd2].
  pose proof (Z.log2_nonneg n) as Hln.
  pose proof (Z.log2_nonneg (Zpos d)) as Hld.
  set (ln := Z.log2 n) in *. set (ld := Z.log2 (Zpos d)) in *.
  assert (Hq : forall a b : Z, (0 <= a)%Z -> (0 <= b)%Z ->
             F64.pow2 (a - b) == inject_Z (2 ^ a) / inject_Z (2 ^ b)).
  { intros a b Ha Hb. unfold F64.pow2. rewrite Qpower_minus by discriminate.
    now rewrite !Zpower_Qpower. }
  assert (Hnd : n # d == inject_Z n / inject_Z (Zpos d)) by apply Qmake_Qdiv.
  assert (Hdpos : 0 < inject_Z (Zpos d)) by reflexivity.
  assert (Hpos : forall k, (0 <= k)%Z -> 0 < inject_Z (2 ^ k)).
  { intros k Hk. rewrite <- pow2_Z by exact Hk. apply pow2_pos. }
  assert (Hlow : F64.pow2 (ln - ld - 1) <= n # d).
  { replace (ln - ld - 1)%Z with (ln - (ld + 1))%Z by lia.
    rewrite Hq, Hnd by lia.
    apply Qle_shift_div_l; [exact Hdpos |].
    unfold Qdiv. rewrite <- Qmult_assoc, (Qmult_comm (/ _)), Qmult_assoc.
    apply Qle_shift_div_r; [apply Hpos; lia |].
    rewrite <- !inject_Z_mult, <- Zle_Qle.
    replace (Z.succ ld) with (ld + 1)%Z in Hd2 by lia. nia. }
  assert (Hhigh : n # d < F64.pow2 (ln - ld + 1)).
  { replace (ln - ld + 1)%Z with (ln + 1 - ld)%Z by lia.
    rewrite Hq, Hnd by lia.
    apply Qlt_shift_div_r; [exact Hdpos |].
    unfold Qdiv. rewrite <- Qmult_assoc, (Qmult_comm (/ _)), Qmult_assoc.
    apply Qlt_shift_div_l; [apply Hpos; lia |].
    rewrite <- !inject_Z_mult, <- Zlt_Qlt.
    replace (Z.succ ln) with (ln + 1)%Z in Hn2 by lia.
    assert (0 < 2 ^ ld)%Z by (apply Z.pow_pos_nonneg; lia). nia. }
  unfold F64.ilog2. cbn [Qnum Qden]. fold ln ld.
  destruct (Qle_bool (F64.pow2 (ln - ld)) (n # d)) eqn:E.
  - apply Qle_bool_iff in E. split; [exact E | exact Hhigh].
  - split; [exact Hlow |].
    replace (ln - ld - 1 + 1)%Z with (ln - ld)%Z by lia.
    apply Qnot_le_lt. intro H. apply Qle_bool_iff in H. congruence.
Qed.

Lemma ilog2_unique (x : Q) (e : Z) :
  F64.pow2 e <= x < F64.pow2 (e + 1) -> F64.ilog2 x = e.
Proof.
  intros [H1 H2].
  assert (Hx : 0 < x) by (apply Qlt_le_trans with (F64.pow2 e); [apply pow2_pos | exact H1]).
  destruct (ilog2_spec x Hx) as [H3 H4].
  assert (F64.ilog2 x < e + 1)%Z.
  { apply pow2_lt_inv. apply Qle_lt_trans with x; assumption. }
  assert (e < F64.ilog2 x + 1)%Z.
  { apply pow2_lt_inv. apply Qle_lt_trans with x; assumption. }
  lia.
Qed.

Lemma ilog2_comp (x y : Q) : 0 < x -> x == y -> F64.ilog2 x = F64.ilog2 y.
Proof.
  intros Hx E. symmetry. apply ilog2_unique. rewrite <- E. now apply ilog2_spec.
Qed.

(** ** Rounding to the nearest binary64 value *)

Lemma nearest_zero (x : Q) : x == 0 -> F64.nearest x = 0.
Proof.
  intro H. unfold F64.nearest. apply Qeq_bool_iff in H. now rewrite H.
Qed.

Lemma nearest_nonzero (x : Q) :
  ~ x == 0 ->
  F64.nearest x =
  inject_Z (Py.round_half_even (x / F64.pow2 (F64.ulp_exponent x)))
  * F64.pow2 (F64.ulp_exponent x).
Proof.
  intro H. unfold F64.nearest.
  destruct (Qeq_bool x 0) eqn:E; [| reflexivity].
  apply Qeq_bool_iff in E. contradiction.
Qed.

Lemma abs_pos_of_nonzero (x : Q) : ~ x == 0 -> 0 < Qabs x.
Proof.
  apply Qabs_case; intros; lra.
Qed.

Lemma ulp_exponent_comp (x y : Q) :
  ~ x == 0 -> x == y -> F64.ulp_exponent x = F64.ulp_exponent y.
Proof.
  intros Hx E. unfold F64.ulp_exponent. f_equal. f_equal.
  apply ilog2_comp; [now apply abs_pos_of_nonzero | now rewrite E].
Qed.

#[global] Instance nearest_comp : Proper (Qeq ==> Qeq) F64.nearest.
Proof.
  intros x y E.
  destruct (Qeq_dec x 0) as [Hx | Hx].
  - rewrite (nearest_zero x Hx), (nearest_zero y); [reflexivity | now rewrite <- E].
  - assert (Hy : ~ y == 0) by (now rewrite <- E).
    rewrite (nearest_nonzero x Hx), (nearest_nonzero y Hy).
    rewrite (ulp_exponent_comp x y Hx E).
    assert (E' : x / F64.pow2 (F64.ulp_exponent y) == y / F64.pow2 (F64.ulp_exponent y))
      by (now rewrite E).
    now rewrite (round_half_even_comp _ _ E').
Qed.

(** A value of the grid of [x] that is below (above) [x] is below (above)
    the rounding of [x]. *)
Lemma nearest_above (x : Q) (k : Z) :
  ~ x == 0 ->
  inject_Z k * F64.pow2 (F64.ulp_exponent x) <= x ->
  inject_Z k * F64.pow2 (F64.ulp_exponent x) <= F64.nearest x.
Proof.
  intros Hx H. rewrite (nearest_nonzero x Hx).
  pose proof (pow2_pos (F64.ulp_exponent x)) as Hp.
  apply Qmult_le_compat_r; [| lra].
  rewrite <- Zle_Qle. rewrite <- (round_half_even_Z k) at 1.
  apply round_half_even_mono. now apply Qle_shift_div_l.
Qed.

Lemma nearest_below (x : Q) (k : Z) :
  ~ x == 0 ->
  x <= inject_Z k * F64.pow2 (F64.ulp_exponent x) ->
  F64.nearest x <= inject_Z k * F64.pow2 (F64.ulp_exponent x).
Proof.
  intros Hx H. rewrite (nearest_nonzero x Hx).
  pose proof (pow2_pos (F64.ulp_exponent x)) as Hp.
  apply Qmult_le_compat_r; [| lra].
  rewrite <- Zle_Qle. rewrite <- (round_half_even_Z k) at 1.
  apply round_half_even_mono. now apply Qle_shift_div_r.
Qed.

Lemma nearest_nonneg (x : Q) : 0 <= x -> 0 <= F64.nearest x.
Proof.
  intro H. destruct (Qeq_dec x 0) as [Hx | Hx].
  - rewrite (nearest_zero x Hx). lra.
  - pose proof (nearest_above x 0 Hx) as Ha.
    change (inject_Z 0) with 0 in Ha. rewrite Qmult_0_l in Ha. now apply Ha.
Qed.

Lemma nearest_nonpos (x : Q) : x <= 0 -> F64.nearest x <= 0.
Proof.
  intro H. destruct (Qeq_dec x 0) as [Hx | Hx].
  - rewrite (nearest_zero x Hx). lra.
  - pose proof (nearest_below x 0 Hx) as Ha.
    change (inject_Z 0) with 0 in Ha. rewrite Qmult_0_l in Ha. now apply Ha.
Qed.

Lemma abs_spec_pos (x : Q) :
  0 < x ->
  F64.pow2 (F64.ilog2 (Qabs x)) <= x < F64.pow2 (F64.ilog2 (Qabs x) + 1).
Proof.
  intro H. assert (E : Qabs x == x) by (apply Qabs_pos; lra).
  rewrite <- (ilog2_comp x (Qabs x)) by (lra || now symmetry).
  now apply ilog2_spec.
Qed.

Lemma abs_spec_neg (x : Q) :
  x < 0 ->
  F64.pow2 (F64.ilog2 (Qabs x)) <= - x < F64.pow2 (F64.ilog2 (Qabs x) + 1).
Proof.
  intro H. assert (E : Qabs x == - x) by (apply Qabs_neg; lra).
  rewrite <- (ilog2_comp (- x) (Qabs x)) by (lra || now symmetry).
  apply ilog2_spec. lra.
Qed.

Lemma nearest_mono_same_grid (x y : Q) :
  ~ x == 0 -> ~ y == 0 -> F64.ulp_exponent x = F64.ulp_exponent y ->
  x <= y -> F64.nearest x <= F64.nearest y.
Proof.
  intros Hx Hy E H.
  rewrite (nearest_nonzero x Hx), (nearest_nonzero y Hy), E.
  pose proof (pow2_pos (F64.ulp_exponent y)) as Hp.
  apply Qmult_le_compat_r; [| lra].
  rewrite <- Zle_Qle. apply round_half_even_mono.
  apply Qmult_le_compat_r; [exact H |].
  apply Qlt_le_weak, Qinv_lt_0_compat, Hp.
Qed.

(** Across two binades the power of two between them separates the
    roundings. *)
Lemma nearest_mono_pos (x y : Q) : 0 < x -> x <= y -> F64.nearest x <= F64.nearest y.
Proof.
  intros Hx Hxy.
  assert (Hy : 0 < y) by lra.
  assert (Nx : ~ x == 0) by lra. assert (Ny : ~ y == 0) by lra.
  destruct (abs_spec_pos x Hx) as [Hx1 Hx2]. destruct (abs_spec_pos y Hy) as [Hy1 Hy2].
  assert (He : (F64.ilog2 (Qabs x) <= F64.ilog2 (Qabs y))%Z).
  { assert (F64.ilog2 (Qabs x) < F64.ilog2 (Qabs y) + 1)%Z; [| lia].
    apply pow2_lt_inv. lra. }
  destruct (Z.eq_dec (F64.ulp_exponent x) (F64.ulp_exponent y)) as [E | NE].
  - now apply nearest_mono_same_grid.
  - set (ex := F64.ilog2 (Qabs x)) in *. set (ey := F64.ilog2 (Qabs y)) in *.
    assert (Hsx : F64.ulp_exponent x = Z.max (ex - 52) (-1074)) by reflexivity.
    assert (Hsy : F64.ulp_exponent y = Z.max (ey - 52) (-1074)) by reflexivity.
    assert (Hlt : (ex < ey)%Z) by lia.
    assert (Hsxy : (F64.ulp_exponent x <= ey)%Z) by lia.
    assert (Hsyy : (F64.ulp_exponent y <= ey)%Z) by lia.
    apply Qle_trans with (F64.pow2 ey).
    + rewrite (pow2_multiple (F64.ulp_exponent x) ey Hsxy).
      apply nearest_below; [exact Nx |].
      rewrite <- (pow2_multiple (F64.ulp_exponent x) ey Hsxy).
      apply Qle_trans with (F64.pow2 (ex + 1)); [lra |]. apply pow2_le. lia.
    + rewrite (pow2_multiple (F64.ulp_exponent y) ey Hsyy).
      apply nearest_above; [exact Ny |].
      rewrite <- (pow2_multiple (F64.ulp_exponent y) ey Hsyy). exact Hy1.
Qed.

Lemma nearest_mono_neg (x y : Q) : y < 0 -> x <= y -> F64.nearest x <= F64.nearest y.
Proof.
  intros Hy Hxy.
  assert (Hx : x < 0) by lra.
  assert (Nx : ~ x == 0) by lra. assert (Ny : ~ y == 0) by lra.
  destruct (abs_spec_neg x Hx) as [Hx1 Hx2]. destruct (abs_spec_neg y Hy) as [Hy1 Hy2].
  assert (He : (F64.ilog2 (Qabs y) <= F64.ilog2 (Qabs x))%Z).
  { assert (F64.ilog2 (Qabs y) < F64.ilog2 (Qabs x) + 1)%Z; [| lia].
    apply pow2_lt_inv. lra. }
  destruct (Z.eq_dec (F64.ulp_exponent x) (F64.ulp_exponent y)) as [E | NE].
  - now apply nearest_mono_same_grid.
  - set (ex := F64.ilog2 (Qabs x)) in *. set (ey := F64.ilog2 (Qabs y)) in *.
    assert (Hsx : F64.ulp_exponent x = Z.max (ex - 52) (-1074)) by reflexivity.
    assert (Hsy : F64.ulp_exponent y = Z.max (ey - 52) (-1074)) by reflexivity.
    assert (Hlt : (ey < ex)%Z) by lia.
    assert (Hsxx : (F64.ulp_exponent x <= ex)%Z) by lia.
    assert (Hsyx : (F64.ulp_exponent y <= ex)%Z) by lia.
    assert (Hopp : forall s, (s <= ex)%Z ->
              - F64.pow2 ex == inject_Z (- 2 ^ (ex - s)) * F64.pow2 s).
    { intros s Hs. rewrite (pow2_multiple s ex Hs), inject_Z_opp. ring. }
    apply Qle_trans with (- F64.pow2 ex).
    + rewrite (Hopp _ Hsxx). apply nearest_below; [exact Nx |].
      rewrite <- (Hopp _ Hsxx). lra.
    + rewrite (Hopp _ Hsyx). apply nearest_above; [exact Ny |].
      rewrite <- (Hopp _ Hsyx).
      assert (F64.pow2 (ey + 1) <= F64.pow2 ex) by (apply pow2_le; lia). lra.
Qed.

(** Rounding to the nearest float keeps the order. *)
Lemma nearest_mono (x y : Q) : x <= y -> F64.nearest x <= F64.nearest y.
Proof.
  intro H.
  destruct (Qlt_le_dec 0 x) as [Hx | Hx].
  - now apply nearest_mono_pos.
  - destruct (Qlt_le_dec y 0) as [Hy | Hy].
    + now apply nearest_mono_neg.
    + apply Qle_trans with 0; [now apply nearest_nonpos | now apply nearest_nonneg].
Qed.

(** ** The values of the floats *)

Lemma ulp_exponent_min (x : Q) : (-1074 <= F64.ulp_exponent x)%Z.
Proof. unfold F64.ulp_exponent. lia. Qed.

Lemma ulp_exponent_below (y : Q) (s : Z) :
  ~ y == 0 -> Qabs y < F64.pow2 (s + 53) -> (-1074 <= s)%Z ->
  (F64.ulp_exponent y <= s)%Z.
Proof.
  intros Hy Hlt Hs.
  destruct (ilog2_spec (Qabs y) (abs_pos_of_nonzero y Hy)) as [H1 _].
  assert (F64.ilog2 (Qabs y) < s + 53)%Z.
  { apply pow2_lt_inv. lra. }
  unfold F64.ulp_exponent. lia.
Qed.

Lemma nearest_on_grid (y : Q) (k s : Z) :
  ~ y == 0 -> y == inject_Z k * F64.pow2 s -> (F64.ulp_exponent y <= s)%Z ->
  F64.nearest y == y.
Proof.
  intros Hy E Hs. rewrite (nearest_nonzero y Hy).
  set (sy := F64.ulp_exponent y) in *.
  pose proof (pow2_pos sy) as Hp.
  assert (Ey : y == inject_Z (k * 2 ^ (s - sy)) * F64.pow2 sy).
  { rewrite E, (pow2_multiple sy s Hs), inject_Z_mult. ring. }
  assert (Eq : y / F64.pow2 sy == inject_Z (k * 2 ^ (s - sy))).
  { rewrite Ey at 1. field. lra. }
  rewrite (round_half_even_comp _ _ Eq), round_half_even_Z. now symmetry.
Qed.

Lemma nearest_representable_below (k s : Z) :
  (Z.abs k < 2 ^ 53)%Z -> (-1074 <= s)%Z ->
  F64.nearest (inject_Z k * F64.pow2 s) == inject_Z k * F64.pow2 s.
Proof.
  intros Hk Hs.
  pose proof (pow2_pos s) as Hp.
  destruct (Z.eq_dec k 0) as [K0 | K0].
  - subst k. rewrite nearest_zero; [ring | ring].
  - assert (Hy : ~ inject_Z k * F64.pow2 s == 0).
    { intro H. apply Qmult_integral in H. destruct H as [H | H]; [| lra].
      apply K0. unfold Qeq in H. simpl in H. lia. }
    apply (nearest_on_grid _ k s Hy); [reflexivity |].
    apply ulp_exponent_below; [exact Hy | | exact Hs].
    rewrite pow2_plus, Qabs_Qmult, (Qabs_pos (F64.pow2 s)) by lra.
    rewrite (Qmult_comm (F64.pow2 s)).
    apply Qmult_lt_compat_r; [exact Hp |].
    rewrite (pow2_Z 53) by lia.
    apply Qabs_case; intro Hsign.
    + rewrite <- Zlt_Qlt. lia.
    + rewrite <- inject_Z_opp, <- Zlt_Qlt. lia.
Qed.

(** A whole number of units [2^s], [s >= -1074], with at most 53 bits is
    the value of a float. *)
Lemma nearest_representable (k s : Z) :
  (Z.abs k <= 2 ^ 53)%Z -> (-1074 <= s)%Z ->
  F64.nearest (inject_Z k * F64.pow2 s) == inject_Z k * F64.pow2 s.
Proof.
  intros Hk Hs.
  destruct (Z.eq_dec (Z.abs k) (2 ^ 53)) as [E | NE].
  - assert (Ek : inject_Z k * F64.pow2 s == inject_Z (k / 2) * F64.pow2 (s + 1)).
    { assert (k = 2 * (k / 2))%Z as Hk2.
      { destruct (Z.abs_spec k) as [[_ Ha] | [_ Ha]]; rewrite Ha in E.
        - rewrite E. reflexivity.
        - assert (k = - 2 ^ 53)%Z by lia. subst k. reflexivity. }
      rewrite Hk2 at 1. rewrite inject_Z_mult, pow2_plus.
      change (F64.pow2 1) with 2. change (inject_Z 2) with 2. ring. }
    rewrite Ek. apply nearest_representable_below; [| lia].
    destruct (Z.abs_spec k) as [[_ Ha] | [_ Ha]]; rewrite Ha in E.
    + rewrite E. reflexivity.
    + assert (k = - 2 ^ 53)%Z by lia. subst k. reflexivity.
  - apply nearest_representable_below; lia.
Qed.

Lemma nearest_Z (n : Z) :
  (Z.abs n <= 2 ^ 53)%Z -> F64.nearest (inject_Z n) == inject_Z n.
Proof.
  intro H. pose proof (nearest_representable n 0 H) as E.
  change (F64.pow2 0) with 1 in E. rewrite Qmult_1_r in E. apply E. lia.
Qed.

(** The rounding of [x] has at most 53 bits in units of the last place of
    [x]. *)
Lemma nearest_digits (x : Q) :
  ~ x == 0 ->
  (Z.abs (Py.round_half_even (x / F64.pow2 (F64.ulp_exponent x))) <= 2 ^ 53)%Z.
Proof.
  intro Hx.
  destruct (ilog2_spec (Qabs x) (abs_pos_of_nonzero x Hx)) as [_ H2].
  set (e := F64.ilog2 (Qabs x)) in *.
  assert (Hs : (e - 52 <= F64.ulp_exponent x)%Z) by (unfold F64.ulp_exponent; fold e; lia).
  set (s := F64.ulp_exponent x) in *.
  pose proof (pow2_pos s) as Hp.
  assert (Hb : Qabs x <= inject_Z (2 ^ 53) * F64.pow2 s).
  { rewrite <- (pow2_Z 53), <- pow2_plus by lia.
    apply Qle_trans with (F64.pow2 (e + 1)); [lra | apply pow2_le; lia]. }
  assert (Hup : x / F64.pow2 s <= inject_Z (2 ^ 53)).
  { apply Qle_shift_div_r; [exact Hp |]. revert Hb. apply Qabs_case; intros; lra. }
  assert (Hlo : inject_Z (- 2 ^ 53) <= x / F64.pow2 s).
  { apply Qle_shift_div_l; [exact Hp |]. rewrite inject_Z_opp.
    revert Hb. apply Qabs_case; intros; lra. }
  apply round_half_even_mono in Hup, Hlo. rewrite round_half_even_Z in Hup, Hlo. lia.
Qed.

(** The rounding of a rational is the value of a float: rounding it again
    changes nothing. *)
Lemma nearest_idem (x : Q) : F64.nearest (F64.nearest x) == F64.nearest x.
Proof.
  destruct (Qeq_dec x 0) as [Hx | Hx].
  - rewrite (nearest_zero x Hx). now rewrite nearest_zero.
  - rewrite (nearest_nonzero x Hx).
    apply nearest_representable; [now apply nearest_digits | apply ulp_exponent_min].
Qed.

Lemma nearest_binary64 (x : Q) : F64.binary64 (F64.nearest x).
Proof. apply nearest_idem. Qed.

(** The rounding error is at most half a unit of the last place. *)
Lemma nearest_error (x : Q) :
  ~ x == 0 ->
  - (F64.pow2 (F64.ulp_exponent x) / 2) <= F64.nearest x - x
  <= F64.pow2 (F64.ulp_exponent x) / 2.
Proof.
  intro Hx. rewrite (nearest_nonzero x Hx).
  set (s := F64.ulp_exponent x).
  pose proof (pow2_pos s) as Hp.
  pose proof (round_half_even_error (x / F64.pow2 s)) as [H1 H2].
  set (k := inject_Z (Py.round_half_even (x / F64.pow2 s))) in *.
  assert (E : k * F64.pow2 s - x == (k - x / F64.pow2 s) * F64.pow2 s) by (field; lra).
  rewrite E. split.
  - apply Qle_trans with (- (1 # 2) * F64.pow2 s); [apply Qle_lteq; right; field |].
    apply Qmult_le_compat_r; lra.
  - apply Qle_trans with ((1 # 2) * F64.pow2 s); [| apply Qle_lteq; right; field].
    apply Qmult_le_compat_r; lra.
Qed.

(** ** The operations of the source *)

#[global] Instance F64_add_comp : Proper (Qeq ==> Qeq ==> Qeq) F64.add.
Proof. intros a a' Ea b b' Eb. unfold F64.add. now rewrite Ea, Eb. Qed.

#[global] Instance F64_sub_comp : Proper (Qeq ==> Qeq ==> Qeq) F64.sub.
Proof. intros a a' Ea b b' Eb. unfold F64.sub. now rewrite Ea, Eb. Qed.

#[global] Instance F64_mul_comp : Proper (Qeq ==> Qeq ==> Qeq) F64.mul.
Proof. intros a a' Ea b b' Eb. unfold F64.mul. now rewrite Ea, Eb. Qed.

#[global] Instance F64_round2_comp : Proper (Qeq ==> Qeq) F64.round2.
Proof. intros a a' Ea. unfold F64.round2. now rewrite Ea. Qed.

#[global] Instance F64_floor_and_round_comp : Proper (Qeq ==> Qeq) F64.floor_and_round.
Proof. intros a a' Ea. unfold F64.floor_and_round. now rewrite Ea. Qed.

Lemma F64_round2_mono (x y : Q) : x <= y -> F64.round2 x <= F64.round2 y.
Proof. intro H. unfold F64.round2. now apply nearest_mono, round2_mono. Qed.

Lemma F64_round2_nonneg (x : Q) : 0 <= x -> 0 <= F64.round2 x.
Proof. intro H. unfold F64.round2. now apply nearest_nonneg, round2_nonneg. Qed.

Lemma F64_floor_and_round_mono (x y : Q) :
  x <= y -> F64.floor_and_round x <= F64.floor_and_round y.
Proof. intro H. unfold F64.floor_and_round. now apply F64_round2_mono, max0_mono. Qed.

Lemma F64_floor_and_round_nonneg (x : Q) : 0 <= F64.floor_and_round x.
Proof. unfold F64.floor_and_round. apply F64_round2_nonneg, max0_nonneg. Qed.

(** A float in whole hundredths that is not negative comes out of
    [round(max(0.0, x), 2)] as it went in. *)
Lemma F64_floor_and_round_stable (f : Q) :
  0 <= f -> F64.round2 f == f -> F64.floor_and_round f == f.
Proof.
  intros H0 H. unfold F64.floor_and_round.
  now rewrite (max0_of_nonneg f H0).
Qed.

Lemma hundredths_binary64 (f : Q) : F64.round2 f == f -> F64.binary64 f.
Proof.
  intro H. unfold F64.binary64. rewrite <- H at 1. unfold F64.round2.
  rewrite nearest_idem. exact H.
Qed.

(** ** The bracket loop *)

Lemma F64_bracket_loop_break (T tax : Q) (b : tier) (rest : list tier) :
  T <= threshold b -> F64.bracket_loop T (b :: rest) tax = tax.
Proof.
  intro H. simpl. apply lt_false_iff in H. now rewrite H.
Qed.

Lemma F64_bracket_loop_step (T tax : Q) (b : tier) (rest : list tier) :
  threshold b < T ->
  F64.bracket_loop T (b :: rest) tax =
  F64.bracket_loop T rest (F64.tier_candidate T b (next_threshold_of rest)).
Proof.
  intro H. simpl. apply lt_true_iff in H. now rewrite H.
Qed.

Lemma F64_bracket_loop_exceeded (T : Q) (pre : list tier) (b : tier) (rest : list tier) (tax : Q) :
  Forall (fun a => threshold a < T) (pre ++ [b]) ->
  F64.bracket_loop T (pre ++ b :: rest) tax =
  F64.bracket_loop T rest (F64.tier_candidate T b (next_threshold_of rest)).
Proof.
  revert tax. induction pre as [| a pre IH]; intros tax H.
  - simpl in H. inversion H; subst. now apply F64_bracket_loop_step.
  - simpl in H. inversion H as [| ? ? Ha Hrest]; subst.
    change ((a :: pre) ++ b :: rest) with (a :: (pre ++ b :: rest)).
    rewrite (F64_bracket_loop_step _ _ _ _ Ha). now apply IH.
Qed.

(** The candidate of a tier whose successor is not exceeded. *)
Lemma F64_tier_candidate_within (T : Q) (b : tier) (nt : option Q) :
  match nt with Some t => T <= t | None => True end ->
  F64.tier_candidate T b nt = F64.band_formula b T.
Proof.
  intro Hn. unfold F64.tier_candidate, F64.band_formula.
  assert (E : match nt with None => T | Some t => Py.min T t end = T).
  { destruct nt as [t |]; [now apply min_of_le | reflexivity]. }
  now rewrite E.
Qed.

Lemma F64_walk_from_exceeded_nil (T : Q) (b : tier) :
  F64.bracket_loop T [] (F64.tier_candidate T b (next_threshold_of []))
  = F64.band_formula b T.
Proof.
  simpl. now apply (F64_tier_candidate_within T b None).
Qed.

Lemma F64_walk_from_exceeded_stop (T : Q) (b b' : tier) (rest : list tier) :
  T <= threshold b' ->
  F64.bracket_loop T (b' :: rest) (F64.tier_candidate T b (next_threshold_of (b' :: rest)))
  = F64.band_formula b T.
Proof.
  intro H'. rewrite F64_bracket_loop_break by exact H'.
  now apply (F64_tier_candidate_within T b (Some (threshold b'))).
Qed.

Lemma F64_compute_individual_nonneg (T : Q) (B : list tier) :
  0 <= F64.compute_individual_tax_brackets T B.
Proof.
  unfold F64.compute_individual_tax_brackets.
  destruct (Qle_bool T 0); [lra | apply F64_floor_and_round_nonneg].
Qed.

Lemma F64_compute_individual_pos (T : Q) (B : list tier) :
  0 < T ->
  F64.compute_individual_tax_brackets T B = F64.floor_and_round (F64.bracket_loop T B 0).
Proof.
  intro H. unfold F64.compute_individual_tax_brackets.
  destruct (Qle_bool T 0) eqn:E; [| reflexivity].
  apply Qle_bool_iff in E. exfalso. lra.
Qed.

Lemma F64_compute_individual_nonpos (T : Q) (B : list tier) :
  T <= 0 -> F64.compute_individual_tax_brackets T B = 0.
Proof.
  intro H. unfold F64.compute_individual_tax_brackets.
  apply Qle_bool_iff in H. now rewrite H.
Qed.

(** On an ascending table only the formula of the band of the income is
    left when the walk ends. *)
Lemma F64_bracket_band_value :
  forall (pre : list tier) (b : tier) (rest : list tier) (T : Q),
    ascending (pre ++ b :: rest) ->
    0 < T ->
    threshold b < T ->
    match rest with [] => True | b' :: _ => T <= threshold b' end ->
    F64.compute_individual_tax_brackets T (pre ++ b :: rest)
    = F64.floor_and_round (F64.band_formula b T).
Proof.
  intros pre b rest T Hasc Hpos Hb Hnext.
  assert (Hbelow : Forall (fun a => threshold a < T) (pre ++ [b])).
  { apply Forall_app. split.
    - eapply Forall_impl; [| exact (ascending_before _ _ _ Hasc)].
      simpl. intros a Ha. lra.
    - constructor; [exact Hb | constructor]. }
  rewrite F64_compute_individual_pos by exact Hpos.
  rewrite (F64_bracket_loop_exceeded T pre b rest 0 Hbelow).
  destruct rest as [| b' rest'].
  - now rewrite F64_walk_from_exceeded_nil.
  - now rewrite F64_walk_from_exceeded_stop.
Qed.

(** ** Monotonicity of the gross tax *)

Lemma band_formula_mono (b : tier) (T1 T2 : Q) :
  0 <= rate b -> T1 <= T2 -> F64.band_formula b T1 <= F64.band_formula b T2.
Proof.
  intros Hr H. unfold F64.band_formula, F64.add, F64.mul, F64.sub.
  apply nearest_mono.
  assert (Hs : Py.max 0 (F64.nearest (T1 - threshold b))
               <= Py.max 0 (F64.nearest (T2 - threshold b))).
  { apply max0_mono, nearest_mono. lra. }
  assert (Hm : F64.nearest (Py.max 0 (F64.nearest (T1 - threshold b)) * rate b)
               <= F64.nearest (Py.max 0 (F64.nearest (T2 - threshold b)) * rate b)).
  { apply nearest_mono. now apply Qmult_le_compat_r. }
  lra.
Qed.

Lemma band_formula_lower (b : tier) (T : Q) :
  0 <= rate b -> F64.binary64 (get_fixed b) -> get_fixed b <= F64.band_formula b T.
Proof.
  intros Hr Hf. unfold F64.binary64 in Hf. unfold F64.band_formula, F64.add, F64.mul.
  apply Qle_trans with (F64.nearest (get_fixed b)); [rewrite Hf; apply Qle_refl |].
  apply nearest_mono.
  assert (Hm : 0 <= F64.nearest (Py.max 0 (F64.sub T (threshold b)) * rate b)).
  { apply nearest_nonneg. apply Qmult_le_0_compat; [apply max0_nonneg | exact Hr]. }
  lra.
Qed.

Lemma F64_chain_lower_bound (rest : list tier) :
  forall (b : tier) (T : Q),
    ascending (b :: rest) ->
    Forall (fun a => 0 <= rate a) (b :: rest) ->
    Forall (fun a => F64.money_amount (get_fixed a)) (b :: rest) ->
    F64.fixed_chain b rest ->
    threshold b < T ->
    get_fixed b
    <= F64.floor_and_round
         (F64.bracket_loop T rest (F64.tier_candidate T b (next_threshold_of rest))).
Proof.
  induction rest as [| b' rest IH]; intros b T Hasc Hrate Hmoney Hchain HT.
  - rewrite F64_walk_from_exceeded_nil.
    inversion Hrate as [| ? ? Hr _]; subst.
    inversion Hmoney as [| ? ? [Hf0 Hf] _]; subst.
    rewrite <- (F64_floor_and_round_stable _ Hf0 Hf) at 1.
    apply F64_floor_and_round_mono, band_formula_lower;
      [exact Hr | now apply hundredths_binary64].
  - inversion Hasc as [| ? ? Hasc' Hb]; subst.
    inversion Hb as [| ? ? Hbb' _]; subst.
    inversion Hrate as [| ? ? Hr Hrate']; subst.
    inversion Hmoney as [| ? ? [Hf0 Hf] Hmoney']; subst.
    destruct Hchain as [Hlink Hchain'].
    assert (Hstep : get_fixed b <= get_fixed b').
    { rewrite Hlink. rewrite <- (F64_floor_and_round_stable _ Hf0 Hf) at 1.
      apply F64_floor_and_round_mono, band_formula_lower;
        [exact Hr | now apply hundredths_binary64]. }
    destruct (Qlt_le_dec (threshold b') T) as [Hlt | Hle].
    + rewrite F64_bracket_loop_step by exact Hlt.
      apply Qle_trans with (1 := Hstep). now apply IH.
    + rewrite F64_walk_from_exceeded_stop by exact Hle.
      rewrite <- (F64_floor_and_round_stable _ Hf0 Hf) at 1.
      apply F64_floor_and_round_mono, band_formula_lower;
        [exact Hr | now apply hundredths_binary64].
Qed.

Lemma F64_chain_mono (rest : list tier) :
  forall (b : tier) (T1 T2 : Q),
    ascending (b :: rest) ->
    Forall (fun a => 0 <= rate a) (b :: rest) ->
    Forall (fun a => F64.money_amount (get_fixed a)) (b :: rest) ->
    F64.fixed_chain b rest ->
    threshold b < T1 -> T1 <= T2 ->
    F64.floor_and_round
      (F64.bracket_loop T1 rest (F64.tier_candidate T1 b (next_threshold_of rest)))
    <= F64.floor_and_round
         (F64.bracket_loop T2 rest (F64.tier_candidate T2 b (next_threshold_of rest))).
Proof.
  induction rest as [| b' rest IH]; intros b T1 T2 Hasc Hrate Hmoney Hchain H1 H12.
  - rewrite !F64_walk_from_exceeded_nil.
    inversion Hrate as [| ? ? Hr _]; subst.
    now apply F64_floor_and_round_mono, band_formula_mono.
  - inversion Hasc as [| ? ? Hasc' Hb]; subst.
    inversion Hrate as [| ? ? Hr Hrate']; subst.
    inversion Hmoney as [| ? ? _ Hmoney']; subst.
    destruct Hchain as [Hlink Hchain'].
    destruct (Qlt_le_dec (threshold b') T1) as [Hlt1 | Hle1].
    + rewrite !F64_bracket_loop_step by lra. now apply IH.
    + destruct (Qlt_le_dec (threshold b') T2) as [Hlt2 | Hle2].
      * rewrite F64_walk_from_exceeded_stop by exact Hle1.
        rewrite F64_bracket_loop_step by exact Hlt2.
        apply Qle_trans with (get_fixed b').
        -- rewrite Hlink. now apply F64_floor_and_round_mono, band_formula_mono.
        -- now apply F64_chain_lower_bound.
      * rewrite !F64_walk_from_exceeded_stop by lra.
        now apply F64_floor_and_round_mono, band_formula_mono.
Qed.

(** The contract read with the calculator gives the chain of fixed
    amounts. *)
Lemma F64_cumulative_fixed_chain (rest : list tier) :
  forall (p : list tier) (b : tier),
    ascending (p ++ b :: rest) ->
    thresholds_nonneg (p ++ b :: rest) ->
    F64.cumulative_fixed_from (p ++ [b]) rest ->
    F64.fixed_chain b rest.
Proof.
  induction rest as [| b' rest IH]; intros p b Hasc Hnn Hcum; simpl.
  - exact I.
  - destruct Hcum as [Hfix Hcum'].
    pose proof (ascending_prefix_below _ _ _ _ Hasc) as Hbelow.
    assert (Hb : threshold b < threshold b').
    { rewrite Forall_forall in Hbelow. apply Hbelow.
      apply in_or_app. right. now left. }
    assert (Hb0 : 0 <= threshold b).
    { unfold thresholds_nonneg in Hnn. rewrite Forall_forall in Hnn.
      apply Hnn. apply in_or_app. right. now left. }
    split.
    + rewrite Hfix.
      rewrite F64_compute_individual_pos by lra.
      rewrite (F64_bracket_loop_exceeded (threshold b') p b [] 0 Hbelow).
      rewrite F64_walk_from_exceeded_nil. reflexivity.
    + apply (IH (p ++ [b]) b').
      * rewrite <- app_assoc. exact Hasc.
      * rewrite <- app_assoc. exact Hnn.
      * exact Hcum'.
Qed.

Lemma F64_compute_company_tax_nonneg (T r : Q) :
  0 <= r -> 0 <= F64.compute_company_tax T r.
Proof.
  intro Hr. unfold F64.compute_company_tax.
  destruct (Qle_bool T 0) eqn:E; [lra |].
  apply F64_round2_nonneg, nearest_nonneg. apply Qmult_le_0_compat; [| exact Hr].
  apply Qlt_le_weak, Qnot_le_lt. intro H. apply Qle_bool_iff in H. congruence.
Qed.

Lemma F64_compute_company_tax_mono (r T1 T2 : Q) :
  0 <= r -> T1 <= T2 ->
  F64.compute_company_tax T1 r <= F64.compute_company_tax T2 r.
Proof.
  intros Hr H12. unfold F64.compute_company_tax at 1.
  destruct (Qle_bool T1 0) eqn:E1; [now apply F64_compute_company_tax_nonneg |].
  assert (H1 : 0 < T1).
  { apply Qnot_le_lt. intro H. apply Qle_bool_iff in H. congruence. }
  unfold F64.compute_company_tax.
  destruct (Qle_bool T2 0) eqn:E2.
  { apply Qle_bool_iff in E2. exfalso. lra. }
  apply F64_round2_mono, nearest_mono. now apply Qmult_le_compat_r.
Qed.

(** ** Floats in whole hundredths *)

Lemma inject_Z_pred (n : Z) : inject_Z (n - 1) == inject_Z n - 1.
Proof.
  replace (n - 1)%Z with (n + -1)%Z by lia. rewrite inject_Z_plus. reflexivity.
Qed.

Lemma round_half_even_near (z : Q) (n : Z) :
  inject_Z n - (1 # 2) < z < inject_Z n + (1 # 2) -> Py.round_half_even z = n.
Proof.
  intros [H1 H2].
  pose proof (floor_bounds z) as [Hlo Hhi].
  assert (Hf : (n - 1 <= Qfloor z <= n)%Z).
  { split.
    - assert (inject_Z (n - 1) < inject_Z (Qfloor z + 1)).
      { rewrite inject_Z_pred, inject_Z_plus. change (inject_Z 1) with 1. lra. }
      rewrite <- Zlt_Qlt in H. lia.
    - assert (inject_Z (Qfloor z) < inject_Z (n + 1)).
      { rewrite inject_Z_plus. change (inject_Z 1) with 1. lra. }
      rewrite <- Zlt_Qlt in H. lia. }
  destruct (round_half_even_cases z) as [[H E] | [[H E] | [H E]]]; rewrite E.
  - destruct (Z.eq_dec (Qfloor z) n) as [En | En]; [exact En |].
    exfalso. assert (Ef : Qfloor z = (n - 1)%Z) by lia.
    rewrite Ef, inject_Z_pred in H. lra.
  - exfalso. destruct (Z.eq_dec (Qfloor z) n) as [En | En].
    + rewrite En in H. lra.
    + assert (Ef : Qfloor z = (n - 1)%Z) by lia.
      rewrite Ef, inject_Z_pred in H. lra.
  - destruct (Z.eq_dec (Qfloor z) n) as [En | En]; [| lia].
    exfalso. rewrite En in H. lra.
Qed.

(** A float within half a hundredth of a multiple of a hundredth is
    rounded to that multiple. *)
Lemma round2_near (y : Q) (n : Z) :
  - (1 # 200) < y - (n # 100) < 1 # 200 -> Py.round2 y = n # 100.
Proof.
  intros [H1 H2]. unfold Py.round2. f_equal.
  apply round_half_even_near. rewrite (hundredths_scale n) in H1, H2. split; lra.
Qed.

(** Below [2^46] floats are less than a hundredth apart: the float of an
    amount in hundredths is rounded back to that amount. *)
Lemma round2_of_nearest_hundredths (n : Z) :
  0 <= n # 100 -> n # 100 < F64.pow2 46 ->
  Py.round2 (F64.nearest (n # 100)) = n # 100.
Proof.
  intros H0 Hlt.
  destruct (Qeq_dec (n # 100) 0) as [Hz | Hz].
  - rewrite (nearest_zero _ Hz).
    assert (n = 0)%Z by (unfold Qeq in Hz; simpl in Hz; lia). subst n. reflexivity.
  - apply round2_near.
    pose proof (nearest_error (n # 100) Hz) as [He1 He2].
    assert (Hs : (F64.ulp_exponent (n # 100) <= -7)%Z).
    { apply ulp_exponent_below; [exact Hz | | lia].
      rewrite Qabs_pos by exact H0. exact Hlt. }
    apply pow2_le in Hs. change (F64.pow2 (-7)) with (1 # 128) in Hs.
    unfold Qdiv in He1, He2. change (/ 2) with (1 # 2) in He1, He2.
    set (u := F64.pow2 (F64.ulp_exponent (n # 100))) in *.
    set (y := F64.nearest (n # 100)) in *. set (q := n # 100) in *.
    split; lra.
Qed.

Lemma F64_round2_idem_below (x : Q) :
  0 <= Py.round2 x -> Py.round2 x < F64.pow2 46 ->
  F64.round2 (F64.round2 x) == F64.round2 x.
Proof.
  intros H0 Hlt. unfold F64.round2 at 1 2.
  unfold Py.round2 at 2. unfold Py.round2 in H0, Hlt.
  rewrite (round2_of_nearest_hundredths _ H0 Hlt). reflexivity.
Qed.

(** From [2^46] up the floats are at least [2^-6] apart, more than a
    hundredth: the float of an amount in hundredths, rounded to hundredths
    and read as a float again, is the same float. *)
Lemma nearest_round2_of_nearest_hundredths (n : Z) :
  F64.pow2 46 <= n # 100 ->
  F64.nearest (Py.round2 (F64.nearest (n # 100))) == F64.nearest (n # 100).
Proof.
  intro Hbig.
  set (q := n # 100) in *.
  assert (Hq : 0 < q) by (pose proof (pow2_pos 46); lra).
  assert (Nq : ~ q == 0) by lra.
  destruct (abs_spec_pos q Hq) as [Hq1 Hq2].
  set (e := F64.ilog2 (Qabs q)) in *.
  assert (He : (46 <= e)%Z).
  { assert (46 < e + 1)%Z; [| lia]. apply pow2_lt_inv. lra. }
  assert (Hs : F64.ulp_exponent q = (e - 52)%Z) by (unfold F64.ulp_exponent; fold e; lia).
  set (s := (e - 52)%Z) in *.
  pose proof (pow2_pos s) as Hp.
  assert (Hs6 : 1 # 64 <= F64.pow2 s).
  { change (1 # 64) with (F64.pow2 (-6)). apply pow2_le. lia. }
  assert (Ee : F64.pow2 e == inject_Z (2 ^ 52) * F64.pow2 s).
  { rewrite (pow2_multiple s e) by lia. now replace (e - s)%Z with 52%Z by lia. }
  assert (Ee1 : F64.pow2 (e + 1) == inject_Z (2 ^ 53) * F64.pow2 s).
  { rewrite (pow2_multiple s (e + 1)) by lia. now replace (e + 1 - s)%Z with 53%Z by lia. }
  pose proof (nearest_nonzero q Nq) as Ey. rewrite Hs in Ey.
  set (k := Py.round_half_even (q / F64.pow2 s)) in *.
  assert (Hk : (2 ^ 52 <= k <= 2 ^ 53)%Z).
  { split.
    - rewrite <- (round_half_even_Z (2 ^ 52)). apply round_half_even_mono.
      apply Qle_shift_div_l; [exact Hp | lra].
    - rewrite <- (round_half_even_Z (2 ^ 53)). apply round_half_even_mono.
      apply Qle_shift_div_r; [exact Hp | lra]. }
  assert (Hint : forall m : Z, F64.nearest q == inject_Z m ->
                   F64.nearest (Py.round2 (F64.nearest q)) == F64.nearest q).
  { intros m Em. rewrite Em, round2_int, <- Em. apply nearest_idem. }
  destruct (Z.eq_dec k (2 ^ 52)) as [K52 | K52].
  { apply (Hint (2 ^ e)%Z). rewrite Ey, K52, <- Ee. now apply pow2_Z; lia. }
  destruct (Z.eq_dec k (2 ^ 53)) as [K53 | K53].
  { apply (Hint (2 ^ (e + 1))%Z). rewrite Ey, K53, <- Ee1. apply pow2_Z. lia. }
  set (y := F64.nearest q) in *.
  pose proof (round2_error y) as [Hw1 Hw2].
  set (w := Py.round2 y) in *.
  assert (Hy1 : F64.pow2 e + F64.pow2 s <= y).
  { rewrite Ey, Ee.
    apply Qle_trans with (inject_Z (2 ^ 52 + 1) * F64.pow2 s).
    - rewrite inject_Z_plus. change (inject_Z 1) with 1. apply Qle_lteq. right. ring.
    - apply Qmult_le_compat_r; [| lra]. rewrite <- Zle_Qle. lia. }
  assert (Hy2 : y <= F64.pow2 (e + 1) - F64.pow2 s).
  { rewrite Ey, Ee1.
    apply Qle_trans with (inject_Z (2 ^ 53 - 1) * F64.pow2 s).
    - apply Qmult_le_compat_r; [| lra]. rewrite <- Zle_Qle. lia.
    - rewrite inject_Z_pred. apply Qle_lteq. right. ring. }
  assert (Hwpos : 0 < w) by (pose proof (pow2_pos e); lra).
  assert (Nw : ~ w == 0) by lra.
  assert (Hsw : F64.ulp_exponent w = s).
  { unfold F64.ulp_exponent.
    assert (Ew : F64.ilog2 (Qabs w) = e).
    { apply ilog2_unique. rewrite (Qabs_pos w) by lra. split; lra. }
    rewrite Ew. lia. }
  rewrite (nearest_nonzero w Nw), Hsw, Ey.
  assert (Ek : Py.round_half_even (w / F64.pow2 s) = k).
  { apply round_half_even_near.
    assert (Ewk : w / F64.pow2 s - inject_Z k == (w - y) / F64.pow2 s).
    { rewrite Ey. field. lra. }
    assert (Hup : (w - y) / F64.pow2 s <= 32 # 100).
    { apply Qle_shift_div_r; [exact Hp |]. lra. }
    assert (Hlo : - (32 # 100) <= (w - y) / F64.pow2 s).
    { apply Qle_shift_div_l; [exact Hp |]. lra. }
    split; lra. }
  now rewrite Ek.
Qed.

(** [round(x, 2)] of a float that [round(x, 2)] returned is that float. *)
Lemma F64_round2_idem (x : Q) :
  0 <= x -> F64.round2 (F64.round2 x) == F64.round2 x.
Proof.
  intro H0. apply round2_nonneg in H0.
  destruct (Qlt_le_dec (Py.round2 x) (F64.pow2 46)) as [Hlt | Hge].
  - now apply F64_round2_idem_below.
  - unfold F64.round2 at 1 2. unfold Py.round2 at 2.
    now apply nearest_round2_of_nearest_hundredths.
Qed.

(** The fixed amounts of a cumulative table are amounts the calculator
    returned: not negative, in whole hundredths. *)
Lemma F64_cumulative_fixed_money (rest : list tier) :
  forall p : list tier,
    F64.cumulative_fixed_from p rest ->
    Forall (fun b => F64.money_amount (get_fixed b)) rest.
Proof.
  induction rest as [| b rest IH]; intros p H; constructor.
  - destruct H as [H _]. split.
    + rewrite H. apply F64_compute_individual_nonneg.
    + rewrite H. unfold F64.compute_individual_tax_brackets.
      destruct (Qle_bool (threshold b) 0); [reflexivity |].
      apply F64_round2_idem, max0_nonneg.
  - destruct H as [_ H]. exact (IH _ H).
Qed.

(** C5.  On binary64 floats the gross tax never decreases when the taxable
    income grows, from 0 upwards: for a flat rate between 0 and 1, and for
    a bracket table with non-negative, strictly ascending thresholds, rates
    between 0 and 1 and fixed amounts that are, each, the tax the
    calculator itself returns at the threshold of the tier on the tiers
    below. *)
Theorem gross_tax_monotone_binary64 :
  (forall r T1 T2 : Q,
      0 <= r <= 1 -> 0 <= T1 -> T1 <= T2 ->
      F64.compute_company_tax T1 r <= F64.compute_company_tax T2 r) /\
  (forall (B : list tier) (T1 T2 : Q),
      ascending B -> thresholds_nonneg B -> rates_in_unit B ->
      F64.cumulative_fixed B ->
      0 <= T1 -> T1 <= T2 ->
      F64.compute_individual_tax_brackets T1 B
      <= F64.compute_individual_tax_brackets T2 B).
Proof.
  split.
  - intros r T1 T2 [Hr _] _ H12. now apply F64_compute_company_tax_mono.
  - intros [| b rest] T1 T2 Hasc Hnn Hr Hcum H0 H12.
    + assert (E : forall T, F64.compute_individual_tax_brackets T [] == 0).
      { intro T. unfold F64.compute_individual_tax_brackets.
        destruct (Qle_bool T 0); reflexivity. }
      rewrite !E. apply Qle_refl.
    + destruct (Qlt_le_dec 0 T1) as [Hpos | Hzero].
      * rewrite !F64_compute_individual_pos by lra.
        destruct (Qlt_le_dec (threshold b) T1) as [Hlt | Hle].
        -- rewrite !F64_bracket_loop_step by lra.
           apply F64_chain_mono; try assumption.
           ++ eapply Forall_impl; [| exact Hr]. simpl. intros a [Ha _]. exact Ha.
           ++ exact (F64_cumulative_fixed_money _ _ Hcum).
           ++ destruct Hcum as [_ Hcum].
              now apply (F64_cumulative_fixed_chain rest [] b).
        -- rewrite (F64_bracket_loop_break T1) by exact Hle.
           apply Qle_trans with 0; [discriminate | apply F64_floor_and_round_nonneg].
      * rewrite (F64_compute_individual_nonpos T1) by exact Hzero.
        apply F64_compute_individual_nonneg.
Qed.

Lemma F64_cumulative_brackets_contract :
  ascending F64.cumulative_brackets /\ thresholds_nonneg F64.cumulative_brackets /\
  rates_in_unit F64.cumulative_brackets /\
  F64.cumulative_fixed F64.cumulative_brackets.
Proof.
  unfold ascending, thresholds_nonneg, rates_in_unit, F64.cumulative_brackets.
  split; [repeat constructor; simpl; reflexivity |].
  split; [repeat constructor; simpl; discriminate |].
  split; [repeat (constructor; [split; closed_q |]); constructor |].
  cbv [F64.cumulative_fixed F64.cumulative_fixed_from app].
  repeat (split; [closed_q |]). exact I.
Qed.

Lemma gross_tax_monotone_binary64_witness :
  F64.compute_company_tax 250 (F64.nearest (30 # 100))
  <= F64.compute_company_tax 1000 (F64.nearest (30 # 100)) /\
  F64.compute_individual_tax_brackets 4000000 F64.cumulative_brackets
  <= F64.compute_individual_tax_brackets 6000000 F64.cumulative_brackets.
Proof.
  destruct F64_cumulative_brackets_contract as [Ha [Hn [Hr Hc]]].
  split.
  - apply (proj1 gross_tax_monotone_binary64 (F64.nearest (30 # 100)) 250 1000);
      [split |..]; closed_q.
  - apply (proj2 gross_tax_monotone_binary64 F64.cumulative_brackets 4000000 6000000);
      try assumption; closed_q.
Defined.

(** A table of floats whose fixed amounts are the running sums of the
    bands below, to the last bit, on which the gross tax falls from 0.38
    at an income of 4 to 0.37 at 4.5.  At 4 the second tier gives
    [0.07499999999999993 + 3 * 0.1], which the two roundings of the float
    product and sum bring up to 0.375, rounded to 0.38; at 4.5 the third
    tier gives its fixed amount 0.37499999999999994, rounded to 0.37.  The
    run is the same on the machine floats and on their values.  The second
    fixed amount is not what the calculator returns at the threshold 1,
    which is 0.07. *)
Lemma gross_tax_steps_down_at_half_cent :
  ascending half_cent_values /\ thresholds_nonneg half_cent_values /\
  rates_in_unit half_cent_values /\ cumulative_fixed_exact half_cent_values /\
  Binary64.compute_individual_tax_brackets 4 Binary64.half_cent_brackets = 0.38%float /\
  Binary64.compute_individual_tax_brackets 4.5 Binary64.half_cent_brackets = 0.37%float /\
  F64.compute_individual_tax_brackets 4 half_cent_values == Binary64.to_Q 0.38 /\
  F64.compute_individual_tax_brackets (9 # 2) half_cent_values == Binary64.to_Q 0.37 /\
  ~ F64.compute_individual_tax_brackets 4 half_cent_values
    <= F64.compute_individual_tax_brackets (9 # 2) half_cent_values /\
  ~ F64.cumulative_fixed half_cent_values.
Proof.
  split; [unfold ascending; repeat constructor; closed_q |].
  split; [unfold thresholds_nonneg; repeat constructor; closed_q |].
  split; [unfold rates_in_unit; repeat (constructor; [split; closed_q |]); constructor |].
  split; [repeat split; closed_q |].
  split; [reflexivity |]. split; [reflexivity |].
  split; [closed_q |]. split; [closed_q |].
  split.
  - intro H. vm_compute in H. apply H. reflexivity.
  - intros [_ [H _]]. vm_compute in H. discriminate H.
Qed.

(** The default table is not cumulative in its two upper tiers (360,000 and
    1,830,000 where the calculator returns 300,000 and 1,824,000 at the
    thresholds), and the gross tax falls just above 10,000,000. *)
Lemma default_brackets_not_cumulative :
  ~ F64.cumulative_fixed F64.default_brackets /\
  ~ cumulative_fixed_exact F64.default_brackets /\
  F64.compute_individual_tax_brackets 10000000 F64.default_brackets == 1884000 /\
  F64.compute_individual_tax_brackets 10000001 F64.default_brackets
  == F64.nearest (18300004 # 10).
Proof.
  split; [| split; [| split; closed_q]].
  - intros [_ [_ [_ [H _]]]]. vm_compute in H. discriminate H.
  - intros [_ [_ [_ [H _]]]]. vm_compute in H. discriminate H.
Qed.

(** * Credits and rebates on floats *)

Lemma ltb_leb (x y : float) : (x <? y)%float = true -> (x <=? y)%float = true.
Proof.
  rewrite ltb_spec, leb_spec. unfold SFltb, SFleb.
  destruct (SFcompare (Prim2SF x) (Prim2SF y)) as [[| |] |]; congruence.
Qed.

Lemma binary64_max0_nonneg (x : float) : (0 <=? Binary64.max 0 x)%float = true.
Proof.
  unfold Binary64.max. destruct (0 <? x)%float eqn:E.
  - now apply ltb_leb.
  - reflexivity.
Qed.

Lemma F64_sub_Z (a b : Z) :
  (Z.abs (a - b) <= 2 ^ 53)%Z ->
  F64.sub (inject_Z a) (inject_Z b) == inject_Z (a - b).
Proof.
  intro H. unfold F64.sub.
  assert (E : inject_Z a - inject_Z b == inject_Z (a - b)).
  { unfold Z.sub. rewrite inject_Z_plus, inject_Z_opp. reflexivity. }
  rewrite E. now apply nearest_Z.
Qed.

(** C7.  The credits step on floats.  For all floats, NaN and the
    infinities included, the net tax payable is [max(0.0, d)] where [d] is
    the gross tax less the withholding credits, less the foreign credits,
    less the rebates, subtracted in that order, each subtraction rounded;
    it is never below 0, and it is 0 whenever [d] is not above 0: what the
    credits exceed the gross tax by is dropped.  For amounts that are whole
    numbers up to [2^51] no subtraction rounds: the net tax payable is
    then exactly the gross tax less the sum of the three amounts, floored
    at 0, whatever the order of the three.  With a gross tax of 1,000,000,
    credits of 600,000 and 300,000 and rebates of 200,000 it is 0. *)
Theorem credits_and_rebates_on_floats :
  (forall g w f r : float,
      Binary64.apply_credits_and_rebates g w f r = Binary64.max 0 (g - w - f - r) /\
      (0 <=? Binary64.apply_credits_and_rebates g w f r)%float = true /\
      ((0 <? g - w - f - r)%float = false ->
       Binary64.apply_credits_and_rebates g w f r = 0%float) /\
      ((0 <? g - w - f - r)%float = true ->
       Binary64.apply_credits_and_rebates g w f r = (g - w - f - r)%float)) /\
  (forall g w f r : Z,
      (0 <= g <= 2 ^ 51)%Z -> (0 <= w <= 2 ^ 51)%Z ->
      (0 <= f <= 2 ^ 51)%Z -> (0 <= r <= 2 ^ 51)%Z ->
      F64.apply_credits_and_rebates (inject_Z g) (inject_Z w) (inject_Z f) (inject_Z r)
      == Py.max 0 (inject_Z g - (inject_Z w + inject_Z f + inject_Z r))) /\
  Binary64.apply_credits_and_rebates 1000000 600000 300000 200000 = 0%float /\
  F64.apply_credits_and_rebates 1000000 600000 300000 200000 == 0.
Proof.
  split; [| split; [| split]].
  - intros g w f r. unfold Binary64.apply_credits_and_rebates.
    split; [reflexivity |]. split; [apply binary64_max0_nonneg |].
    unfold Binary64.max. split; intro H; now rewrite H.
  - intros g w f r Hg Hw Hf Hr. unfold F64.apply_credits_and_rebates.
    assert (H53 : (2 ^ 53 = 4 * 2 ^ 51)%Z) by reflexivity.
    rewrite F64_sub_Z by lia.
    rewrite F64_sub_Z by lia.
    rewrite F64_sub_Z by lia.
    apply max0_comp.
    unfold Z.sub. rewrite !inject_Z_plus, !inject_Z_opp. ring.
  - reflexivity.
  - closed_q.
Qed.

Lemma credits_and_rebates_on_floats_witness :
  Binary64.apply_credits_and_rebates 1000000 600000 300000 200000 = 0%float /\
  F64.apply_credits_and_rebates (inject_Z 1000000) (inject_Z 300000) (inject_Z 600000)
    (inject_Z 200000)
  == Py.max 0 (inject_Z 1000000 - (inject_Z 300000 + inject_Z 600000 + inject_Z 200000)).
Proof.
  split.
  - apply (proj1 (proj2 (proj2 (proj1 credits_and_rebates_on_floats
                                         1000000 600000 300000 200000)%float))).
    reflexivity.
  - apply (proj1 (proj2 credits_and_rebates_on_floats)
             1000000%Z 300000%Z 600000%Z 200000%Z);
      vm_compute; split; discriminate.
Defined.

(** Float subtraction is not exact.  Credits of 1.0 and 0.1 against a gross
    tax of 1.1 leave a net tax of [2^-54 * 1.5], not 0, when the 1.0 is
    taken off first, and 0 when the 0.1 is; the sum of the credits, added
    up first, is the float 1.1, and taking it off in one go gives 0.  On
    whole amounts above [2^53]: a gross tax of 10,000,000,000,000,004 less
    1, less 10,000,000,000,000,002, less 1 leaves 1, and 0 when the two
    credits change places. *)
Lemma credits_order_matters_on_floats :
  Binary64.apply_credits_and_rebates 1.1 1.0 0.1 0 = 0x1.8p-54%float /\
  Binary64.apply_credits_and_rebates 1.1 0.1 1.0 0 = 0%float /\
  Binary64.max 0 (1.1 - (1.0 + 0.1 + 0)) = 0%float /\
  (1.1 <=? 1.0 + 0.1 + 0)%float = true /\
  (0 <? Binary64.apply_credits_and_rebates 1.1 1.0 0.1 0)%float = true /\
  Binary64.apply_credits_and_rebates 10000000000000004 1 10000000000000002 1 = 1%float /\
  Binary64.apply_credits_and_rebates 10000000000000004 10000000000000002 1 1 = 0%float /\
  F64.apply_credits_and_rebates (Binary64.to_Q 1.1) 1 (Binary64.to_Q 0.1) 0
  == Binary64.to_Q 0x1.8p-54 /\
  F64.apply_credits_and_rebates (Binary64.to_Q 1.1) (Binary64.to_Q 0.1) 1 0 == 0.
Proof.
  repeat split; try reflexivity; closed_q.
Qed.

(** * The default schedule on floats *)

(** Within a band, above the threshold and with a rate and a fixed amount
    that are not negative, neither floor does anything. *)
Lemma F64_band_value_unfloored (b : tier) (T : Q) :
  threshold b < T -> 0 <= rate b -> 0 <= get_fixed b ->
  F64.floor_and_round (F64.band_formula b T)
  == F64.round2 (F64.add (get_fixed b) (F64.mul (F64.sub T (threshold b)) (rate b))).
Proof.
  intros HT Hr Hf. unfold F64.floor_and_round, F64.band_formula.
  assert (Hs : 0 <= F64.sub T (threshold b)).
  { unfold F64.sub. apply nearest_nonneg. lra. }
  rewrite (max0_of_nonneg _ Hs).
  assert (Hm : 0 <= F64.mul (F64.sub T (threshold b)) (rate b)).
  { unfold F64.mul. apply nearest_nonneg. now apply Qmult_le_0_compat. }
  assert (Ha : 0 <= F64.add (get_fixed b) (F64.mul (F64.sub T (threshold b)) (rate b))).
  { unfold F64.add. apply nearest_nonneg. lra. }
  now rewrite (max0_of_nonneg _ Ha).
Qed.

Lemma F64_add_0_l (x : Q) : F64.add 0 (F64.nearest x) == F64.nearest x.
Proof.
  unfold F64.add. rewrite Qplus_0_l. apply nearest_idem.
Qed.

Ltac default_band_side :=
  unfold F64.default_brackets;
  cbn [get_fixed fixed threshold rate tl skipn firstn];
  first [exact I | lra | closed_q].

(** X20.  What the default table charges on floats, band by band: nothing
    up to 2,820,000, then [round((T - 2,820,000) * 0.10, 2)], then
    [round(120,000 + (T - 4,020,000) * 0.20, 2)], then
    [round(360,000 + (T - 4,920,000) * 0.30, 2)], then
    [round(1,830,000 + (T - 10,000,000) * 0.40, 2)], every operation a
    float operation and the rates the floats of their literals; an income
    equal to a threshold is in the band below.  At 2,820,000.25 the tax is
    0.03: a quarter times the float of 0.10 is just above 0.025. *)
Theorem default_schedule_on_floats :
  (forall T : Q,
    (T <= 2820000 -> F64.compute_individual_tax_brackets T F64.default_brackets == 0) /\
    (2820000 < T -> T <= 4020000 ->
     F64.compute_individual_tax_brackets T F64.default_brackets
     == F64.round2 (F64.mul (F64.sub T 2820000) (F64.nearest (10 # 100)))) /\
    (4020000 < T -> T <= 4920000 ->
     F64.compute_individual_tax_brackets T F64.default_brackets
     == F64.round2 (F64.add 120000 (F64.mul (F64.sub T 4020000) (F64.nearest (20 # 100))))) /\
    (4920000 < T -> T <= 10000000 ->
     F64.compute_individual_tax_brackets T F64.default_brackets
     == F64.round2 (F64.add 360000 (F64.mul (F64.sub T 4920000) (F64.nearest (30 # 100))))) /\
    (10000000 < T ->
     F64.compute_individual_tax_brackets T F64.default_brackets
     == F64.round2 (F64.add 1830000
                      (F64.mul (F64.sub T 10000000) (F64.nearest (40 # 100)))))) /\
  F64.compute_individual_tax_brackets (282000025 # 100) F64.default_brackets
  == F64.nearest (3 # 100) /\
  Binary64.compute_individual_tax_brackets 2820000.25 Binary64.default_brackets
  = 0.03%float.
Proof.
  split; [| split; [closed_q | reflexivity]].
  intro T.
  assert (Hasc : ascending F64.default_brackets)
    by (unfold ascending, F64.default_brackets; repeat constructor; simpl; reflexivity).
  assert (Hband : forall pre b rest,
             F64.default_brackets = pre ++ b :: rest ->
             0 < T -> threshold b < T ->
             match rest with [] => True | b' :: _ => T <= threshold b' end ->
             0 <= rate b -> 0 <= get_fixed b ->
             F64.compute_individual_tax_brackets T F64.default_brackets
             == F64.round2 (F64.add (get_fixed b)
                              (F64.mul (F64.sub T (threshold b)) (rate b)))).
  { intros pre b rest E Hpos Hb Hnext Hr Hf. rewrite E in Hasc |- *.
    rewrite (F64_bracket_band_value pre b rest T Hasc Hpos Hb Hnext).
    now apply F64_band_value_unfloored. }
  split; [| split; [| split; [| split]]].
  - intro H. destruct (Qlt_le_dec 0 T) as [Hpos | Hneg].
    + rewrite (Hband [] (mk_tier 0 0 (Some 0)) (tl F64.default_brackets) eq_refl);
        [| default_band_side ..].
      cbn [get_fixed fixed threshold rate].
      unfold F64.mul. rewrite Qmult_0_r.
      reflexivity.
    + now rewrite F64_compute_individual_nonpos.
  - intros H1 H2.
    rewrite (Hband (firstn 1 F64.default_brackets)
               (mk_tier 2820000 (F64.nearest (10 # 100)) (Some 0))
               (skipn 2 F64.default_brackets) eq_refl);
      [| default_band_side ..].
    cbn [get_fixed fixed threshold rate].
    unfold F64.mul. now rewrite F64_add_0_l.
  - intros H1 H2.
    rewrite (Hband (firstn 2 F64.default_brackets)
               (mk_tier 4020000 (F64.nearest (20 # 100)) (Some 120000))
               (skipn 3 F64.default_brackets) eq_refl);
      [| default_band_side ..].
    reflexivity.
  - intros H1 H2.
    rewrite (Hband (firstn 3 F64.default_brackets)
               (mk_tier 4920000 (F64.nearest (30 # 100)) (Some 360000))
               (skipn 4 F64.default_brackets) eq_refl);
      [| default_band_side ..].
    reflexivity.
  - intro H1.
    rewrite (Hband (firstn 4 F64.default_brackets)
               (mk_tier 10000000 (F64.nearest (40 # 100)) (Some 1830000))
               [] eq_refl);
      [| default_band_side ..].
    reflexivity.
Qed.

Lemma default_schedule_on_floats_witness :
  F64.compute_individual_tax_brackets 2820000 F64.default_brackets == 0 /\
  F64.compute_individual_tax_brackets 3000000 F64.default_brackets
  == F64.round2 (F64.mul (F64.sub 3000000 2820000) (F64.nearest (10 # 100))) /\
  F64.compute_individual_tax_brackets 12000000 F64.default_brackets
  == F64.round2 (F64.add 1830000
                   (F64.mul (F64.sub 12000000 10000000) (F64.nearest (40 # 100)))).
Proof.
  split; [| split].
  - apply (proj1 (proj1 default_schedule_on_floats 2820000)). closed_q.
  - apply (proj1 (proj2 (proj1 default_schedule_on_floats 3000000))); closed_q.
  - apply (proj2 (proj2 (proj2 (proj2 (proj1 default_schedule_on_floats 12000000))))).
    closed_q.
Defined.

(** * The results on floats *)

(** The worked values, rounded, on the machine floats. *)
Lemma binary64_worked_results :
  Binary64.compute_individual_tax_brackets 5000000 Binary64.default_brackets
  = 384000%float /\
  Binary64.compute_individual_tax_brackets 4020000 Binary64.default_brackets
  = 120000%float /\
  Binary64.compute_individual_tax_brackets 4920000 Binary64.default_brackets
  = 300000%float /\
  Binary64.compute_company_tax 100000000 0.30 = 30000000%float /\
  Binary64.compute_company_tax 1000.05 0.3 = 300.01%float /\
  Binary64.compute_company_tax (-1000) 0.30 = 0%float.
Proof.
  repeat split; reflexivity.
Qed.

Lemma F64_round2_binary64 (x : Q) : F64.binary64 (F64.round2 x).
Proof. unfold F64.round2. apply nearest_binary64. Qed.

(** X22.  On floats the gross tax of either calculator is a float in whole
    hundredths that is not negative: [round(tax, 2)] gives the tax back,
    for every bracket table and every taxable income, and for every
    company rate that is not negative. *)
Theorem gross_tax_is_rounded_float :
  (forall (T : Q) (B : list tier),
      0 <= F64.compute_individual_tax_brackets T B /\
      F64.binary64 (F64.compute_individual_tax_brackets T B) /\
      F64.round2 (F64.compute_individual_tax_brackets T B)
      == F64.compute_individual_tax_brackets T B) /\
  (forall T r : Q,
      0 <= r ->
      0 <= F64.compute_company_tax T r /\
      F64.binary64 (F64.compute_company_tax T r) /\
      F64.round2 (F64.compute_company_tax T r) == F64.compute_company_tax T r).
Proof.
  split.
  - intros T B. split; [apply F64_compute_individual_nonneg |].
    unfold F64.compute_individual_tax_brackets.
    destruct (Qle_bool T 0); [split; reflexivity |].
    split; [apply F64_round2_binary64 | apply F64_round2_idem, max0_nonneg].
  - intros T r Hr. split; [now apply F64_compute_company_tax_nonneg |].
    unfold F64.compute_company_tax.
    destruct (Qle_bool T 0) eqn:E; [split; reflexivity |].
    split; [apply F64_round2_binary64 |].
    apply F64_round2_idem, nearest_nonneg, Qmult_le_0_compat; [| exact Hr].
    apply Qlt_le_weak, Qnot_le_lt. intro H. apply Qle_bool_iff in H. congruence.
Qed.

Lemma gross_tax_is_rounded_float_witness :
  F64.round2 (F64.compute_company_tax (100005 # 100) (F64.nearest (3 # 10)))
  == F64.compute_company_tax (100005 # 100) (F64.nearest (3 # 10)).
Proof.
  apply (proj2 gross_tax_is_rounded_float (100005 # 100) (F64.nearest (3 # 10))).
  closed_q.
Defined.
